(** * CS2 demo statistics pipeline: parse_demo.py and the upload endpoint

    A shallow embedding of [src/processing/parse_demo.py] (class
    [DemoStatsParser], [upload_to_api], [upload_to_database],
    [parse_demo_file], the counting loop of [main]) and of the
    [/api/upload] handler of [src/backend/api_server.py].

    Modelling conventions.
    - A pandas [DataFrame] is a list of rows together with one flag per
      column that the code tests with ['col' in df.columns]; a column whose
      flag is off is never read.  [df.empty] is "no rows" (a frame without
      columns also fails every column test that follows [not df.empty]).
    - A cell that pandas would hold as [None] is [None] of an [option].
    - Python [str] values are [string]s; [str.lower] folds the ASCII
      letters, which covers the roster names of the program.
    - Python and numpy integers are [Z]; sums of damage cells stay far below
      the 64-bit range for any table that fits in memory.
    - A Python [set] of names is a [gset string], the [stats] dictionary a
      [gmap string PlayerStats].
    - A call that may raise returns a sum type with a [Raises] case; the
      [try]/[except] blocks of the source are the matches on it.
    - The time stamp of a match (file name pattern or modification time)
      is a field of the recording; how it is read is not modelled. *)

From Stdlib Require Import ZArith Ascii String.
From stdpp Require Import gmap strings list sorting.

Local Open Scope string_scope.

(** ** Names and the tracked roster *)

Module Names.

(** One character of [str.lower]. *)
Definition lower_ascii (c : ascii) : ascii :=
  let n := nat_of_ascii c in
  if (65 <=? n)%nat && (n <=? 90)%nat then ascii_of_nat (n + 32) else c.

(** [str.lower]. *)
Fixpoint lower (s : string) : string :=
  match s with
  | EmptyString => EmptyString
  | String c s' => String (lower_ascii c) (lower s')
  end.

(** [REQUIRED_PLAYERS] (parse_demo.py, line 23). *)
Definition REQUIRED_PLAYERS : gset string :=
  {[ "nifty"; "Dybbis"; "Togmannen"; "Stutmunn"; "martinsen" ]}.

(** [{p.lower() for p in names}]. *)
Definition lower_set (names : gset string) : gset string :=
  set_map lower names.

(** Truthiness of an optional name: [if player_name] is false for [None]
    and for the empty string. *)
Definition truthy (n : option string) : bool :=
  match n with
  | Some s => negb (String.eqb s "")
  | None => false
  end.

End Names.

(** ** Event tables *)

Module Frames.

(** What [parser.parse_event] / [parser.parse_ticks] can produce: a data
    frame, some other value (the [isinstance] tests), or an exception. *)
Inductive Parsed (A : Type) : Type :=
| Frame (df : A)
| NotFrame
| Raises.
Arguments Frame {A} df.
Arguments NotFrame {A}.
Arguments Raises {A}.

(** A row of the [player_death] table. *)
Record KillRow := {
  attacker_name : option string;
  user_name : option string;
  headshot : bool;
  kill_tick : Z
}.

Record KillFrame := {
  kill_rows : list KillRow;
  has_attacker_name : bool;
  has_user_name : bool;
  has_headshot : bool;
  has_kill_tick : bool
}.

(** A row of the [player_hurt] table. *)
Record HurtRow := {
  hurt_attacker_name : option string;
  weapon : string;
  dmg_health : Z
}.

Record HurtFrame := {
  hurt_rows : list HurtRow;
  has_hurt_attacker_name : bool;
  has_weapon : bool;
  has_dmg_health : bool
}.

(** A row of the [round_end] table.  A missing [winner] cell compares
    unequal to every side, like any string other than CT and T. *)
Record RoundRow := {
  round_tick : Z;
  round : Z;
  winner : string
}.

Record RoundFrame := {
  round_rows : list RoundRow;
  has_round_tick : bool;
  has_round : bool;
  has_winner : bool
}.

(** A row of [parse_ticks(['name', 'team_name'])]: the tick and the two
    requested columns. *)
Record TickRow := {
  tick : Z;
  name : option string;
  team_name : option string
}.

(** [pd.DataFrame()]: no rows, no columns. *)
Definition empty_kills : KillFrame :=
  {| kill_rows := []; has_attacker_name := false; has_user_name := false;
     has_headshot := false; has_kill_tick := false |}.

Definition empty_rounds : RoundFrame :=
  {| round_rows := []; has_round_tick := false; has_round := false;
     has_winner := false |}.

(** [df.empty]. *)
Definition is_empty {A} (rows : list A) : bool :=
  match rows with [] => true | _ => false end.

(** One recording, as the event source exposes it. *)
Record Demo := {
  stem : string;                       (* Path(demo_path).stem *)
  player_death : Parsed KillFrame;
  player_hurt : Parsed HurtFrame;
  round_end : Parsed RoundFrame;
  (* parse_ticks(['name', 'team_name']); None when the call raises *)
  ticks : option (list TickRow);
  (* parse_header(); None when the call raises, else header.get('map_name') *)
  header : option (option string);
  (* the time stamp read from the file name, else the modification time *)
  file_date_time : string
}.

End Frames.

Export Names Frames.

(** ** DemoStatsParser *)

Module Parser.

(** Non-null cells of a name column. *)
Definition cells {A} (col : A → option string) (rows : list A) : list string :=
  omap col rows.

(** [get_player_names] (lines 61-84). *)
Definition get_player_names (d : Demo) : gset string :=
  match player_death d with
  | Frame df =>
      let attackers : gset string :=
        if has_attacker_name df
        then list_to_set (cells attacker_name (kill_rows df)) else ∅ in
      let victims : gset string :=
        if has_user_name df
        then list_to_set (cells user_name (kill_rows df)) else ∅ in
      (attackers ∪ victims) ∖ {[ ""; "None" ]}
  | NotFrame => ∅
  | Raises => ∅
  end.

(** The [missing] set of [check_required_players] (lines 91-94). *)
Definition missing_players (d : Demo) : gset string :=
  lower_set REQUIRED_PLAYERS ∖ lower_set (get_player_names d).

(** [check_required_players] (lines 86-101): [if missing: return False]. *)
Definition check_required_players (d : Demo) : bool :=
  bool_decide (missing_players d = ∅).

(** [get_match_id] (lines 103-108): the stem without underscores. *)
Fixpoint remove_underscores (s : string) : string :=
  match s with
  | EmptyString => EmptyString
  | String c s' =>
      if Ascii.eqb c "_"%char then remove_underscores s'
      else String c (remove_underscores s')
  end.

Definition get_match_id (d : Demo) : string := remove_underscores (stem d).

(** *** Round lookup *)

(** The [for] loop of [get_round_for_tick] (lines 206-208): the round of
    the first row whose tick is not below [t]. *)
Fixpoint scan_rounds (rows : list RoundRow) (t : Z) : option Z :=
  match rows with
  | [] => None
  | row :: rest =>
      if (t <=? round_tick row)%Z then Some (round row)
      else scan_rounds rest t
  end.

(** [get_round_for_tick] (lines 205-209).  [None] is the [IndexError] of
    [iloc[-1]] on a table without rows. *)
Definition get_round_for_tick (rows : list RoundRow) (t : Z) : option Z :=
  match scan_rounds rows t with
  | Some r => Some r
  | None => round <$> last rows
  end.

(** *** Per-player statistics *)

Record PlayerStats := {
  kills_total : Z;
  deaths_total : Z;
  dmg : Z;
  utility_dmg : Z;
  headshot_kills_total : Z;
  ace_rounds_total : Z;
  quad_rounds_total : Z;
  triple_rounds_total : Z;
  mvps : Z
}.

(** [len(df[mask])]. *)
Definition len {A} (l : list A) : Z := Z.of_nat (length l).

(** [Series.sum()] of an integer column. *)
Definition zsum (l : list Z) : Z := foldr Z.add 0%Z l.

(** Lines 151-153. *)
Definition count_kills (kills_df : KillFrame) (player : string) : Z :=
  if negb (is_empty (kill_rows kills_df)) && has_attacker_name kills_df
  then len (filter (λ r, attacker_name r = Some player) (kill_rows kills_df))
  else 0.

(** Lines 156-158. *)
Definition count_deaths (kills_df : KillFrame) (player : string) : Z :=
  if negb (is_empty (kill_rows kills_df)) && has_user_name kills_df
  then len (filter (λ r, user_name r = Some player) (kill_rows kills_df))
  else 0.

(** Lines 161-166. *)
Definition count_headshot_kills (kills_df : KillFrame) (player : string) : Z :=
  if negb (is_empty (kill_rows kills_df)) && has_attacker_name kills_df
     && has_headshot kills_df
  then len (filter (λ r, attacker_name r = Some player ∧ headshot r = true)
                   (kill_rows kills_df))
  else 0.

(** Lines 130-135: the damage table, [None] when it is not a data frame
    or when reading it raised. *)
Definition damage_table (d : Demo) : option HurtFrame :=
  match player_hurt d with
  | Frame df => Some df
  | NotFrame => None
  | Raises => None
  end.

(** Line 178. *)
Definition utility_weapons : list string :=
  ["hegrenade"; "molotov"; "incgrenade"; "inferno"].

(** Lines 169-181: [(total_dmg, utility_dmg)]. *)
Definition damage_of (damage_df : option HurtFrame) (player : string) : Z * Z :=
  match damage_df with
  | Some df =>
      if negb (is_empty (hurt_rows df)) && has_hurt_attacker_name df then
        let player_damage :=
          filter (λ r, hurt_attacker_name r = Some player) (hurt_rows df) in
        let total_dmg :=
          if has_dmg_health df then zsum (dmg_health <$> player_damage)
          else 0%Z in
        let utility_dmg :=
          if has_weapon df && has_dmg_health df
          then zsum (dmg_health <$>
                       filter (λ r, weapon r ∈ utility_weapons) player_damage)
          else 0%Z in
        (total_dmg, utility_dmg)
      else (0%Z, 0%Z)
  | None => (0%Z, 0%Z)
  end.

(** [groupby('round').size()]: the number of rows per distinct round. *)
Definition kills_per_round (rounds : list Z) : gmap Z nat :=
  foldr (λ r m, <[ r := S (default 0%nat (m !! r)) ]> m) ∅ rounds.

(** [len(kills_per_round[mask])] for the three masks of lines 214-216. *)
Definition count_ace (kpr : gmap Z nat) : Z :=
  Z.of_nat (size (filter (λ kv : Z * nat, (5 ≤ kv.2)%nat) kpr)).
Definition count_quad (kpr : gmap Z nat) : Z :=
  Z.of_nat (size (filter (λ kv : Z * nat, kv.2 = 4%nat) kpr)).
Definition count_triple (kpr : gmap Z nat) : Z :=
  Z.of_nat (size (filter (λ kv : Z * nat, kv.2 = 3%nat) kpr)).

(** Line 201: the player's rows of the kill table. *)
Definition player_kills (kills_df : KillFrame) (player : string) : list KillRow :=
  filter (λ r, attacker_name r = Some player) (kill_rows kills_df).

(** Lines 188-218: [(ace_rounds, quad_rounds, triple_rounds)].  An
    exception inside the [try] leaves the three counters at zero. *)
Definition multi_kills (d : Demo) (kills_df : KillFrame) (player : string)
  : Z * Z * Z :=
  if negb (is_empty (kill_rows kills_df)) && has_attacker_name kills_df
     && has_kill_tick kills_df
  then
    match round_end d with
    | Frame round_end_df =>
        if negb (is_empty (round_rows round_end_df))
           && has_round_tick round_end_df && has_round round_end_df
        then
          let pk := player_kills kills_df player in
          if negb (is_empty pk) then
            match mapM (λ k, get_round_for_tick (round_rows round_end_df)
                                                 (kill_tick k)) pk with
            | Some rounds =>
                let kpr := kills_per_round rounds in
                (count_ace kpr, count_quad kpr, count_triple kpr)
            | None => (0%Z, 0%Z, 0%Z)
            end
          else (0%Z, 0%Z, 0%Z)
        else (0%Z, 0%Z, 0%Z)
    | NotFrame => (0%Z, 0%Z, 0%Z)
    | Raises => (0%Z, 0%Z, 0%Z)
    end
  else (0%Z, 0%Z, 0%Z).

(** The body of the [for player in player_names] loop (lines 150-230). *)
Definition stats_of (d : Demo) (kills_df : KillFrame) (player : string)
  : PlayerStats :=
  let '(total_dmg, utility) := damage_of (damage_table d) player in
  let '(ace_rounds, quad_rounds, triple_rounds) :=
    multi_kills d kills_df player in
  {| kills_total := count_kills kills_df player;
     deaths_total := count_deaths kills_df player;
     dmg := total_dmg;
     utility_dmg := utility;
     headshot_kills_total := count_headshot_kills kills_df player;
     ace_rounds_total := ace_rounds;
     quad_rounds_total := quad_rounds;
     triple_rounds_total := triple_rounds;
     mvps := 0 |}.

(** Line 147: [player.lower() in {p.lower() for p in REQUIRED_PLAYERS}]. *)
Definition tracked (player : string) : Prop :=
  lower player ∈ lower_set REQUIRED_PLAYERS.

#[global] Instance tracked_dec player : Decision (tracked player).
Proof. unfold tracked. apply _. Defined.

#[global] Typeclasses Opaque tracked.

(** Lines 116-121: [kills_df], replaced by an empty frame when the
    parser did not return a data frame. *)
Definition kills_table (d : Demo) : KillFrame :=
  match player_death d with
  | Frame df => df
  | NotFrame => empty_kills
  | Raises => empty_kills
  end.

(** [parse_player_stats] (lines 110-238).  The outer [except] returns the
    empty dictionary. *)
Definition parse_player_stats (d : Demo) : gmap string PlayerStats :=
  match player_death d with
  | Raises => ∅
  | _ =>
      let kills_df := kills_table d in
      let player_names := get_player_names d in
      set_to_map (λ player, (player, stats_of d kills_df player))
                 (filter tracked player_names)
  end.

(** *** Match outcome *)

Record MapStats := {
  map_name : string;
  date_time : string;
  won : Z
}.

(** [Series.unique()]: the distinct cells in order of first appearance. *)
Fixpoint unique_from {A} `{EqDecision A} (seen l : list A) : list A :=
  match l with
  | [] => []
  | x :: rest =>
      if decide (x ∈ seen) then unique_from seen rest
      else x :: unique_from (x :: seen) rest
  end.

Definition unique {A} `{EqDecision A} (l : list A) : list A :=
  unique_from [] l.

(** How often a value occurs in a column. *)
Definition occurrences (x : string) (l : list string) : nat :=
  length (filter (λ y, y = x) l).

(** [Series.mode()]: null cells are dropped; the values that occur most
    often, in ascending order. *)
Definition mode (col : list (option string)) : list string :=
  let vals := omap id col in
  let top := max_list_with (λ x, occurrences x vals) vals in
  merge_sort String.le
    (unique (filter (λ x, occurrences x vals = top) vals)).

(** Outcome of the loop over the names of the window (lines 278-286). *)
Inductive TeamSearch :=
| Found (our_team : string)      (* break with our_team set *)
| NotFound                       (* loop ends, our_team is None *)
| ModeRaises.                    (* mode()[0] on an empty result *)

(** Line 279: [player_name and player_name.lower() in our_players_lower]. *)
Definition is_ours (player_name : option string) : bool :=
  truthy player_name && bool_decide (tracked (default "" player_name)).

(** Line 285: ['CT' if team == 'CT' else 'T']. *)
Definition side_of_team (team : string) : string :=
  if String.eqb team "CT" then "CT" else "T".

(** Lines 278-286.  [relevant] is the window; [names] what is left of
    [relevant_ticks['name'].unique()]. *)
Fixpoint find_our_team (relevant : list TickRow) (names : list (option string))
  : TeamSearch :=
  match names with
  | [] => NotFound
  | player_name :: rest =>
      if is_ours player_name then
        let player_ticks := filter (λ r, name r = player_name) relevant in
        if bool_decide (0 < length player_ticks)%nat then
          match head (mode (team_name <$> player_ticks)) with
          | Some team => Found (side_of_team team)
          | None => ModeRaises
          end
        else find_our_team relevant rest
      else find_our_team relevant rest
  end.

(** Lines 297-300: the [except] branch. *)
Definition count_rounds_fallback (round_end_df : RoundFrame) : Z :=
  let ct_wins := len (filter (λ r, winner r = "CT") (round_rows round_end_df)) in
  let t_wins := len (filter (λ r, winner r = "T") (round_rows round_end_df)) in
  if (t_wins <? ct_wins)%Z then 1%Z else 0%Z.

(** Lines 269-272: the rows of the window before the last round's end. *)
Definition relevant_ticks (ticks_df : list TickRow) (last_round_tick : Z)
  : list TickRow :=
  filter (λ r, (last_round_tick - 1000 ≤ tick r)%Z
               ∧ (tick r ≤ last_round_tick)%Z) ticks_df.

(** Lines 256-300: the value of [won]. *)
Definition determine_won (d : Demo) (round_end_df : RoundFrame) : Z :=
  if negb (is_empty (round_rows round_end_df))
     && has_winner round_end_df && has_round_tick round_end_df
  then
    match last (round_rows round_end_df) with
    | Some last_round =>
        let winning_side := winner last_round in
        let last_round_tick := round_tick last_round in
        match ticks d with
        | Some ticks_df =>
            let relevant := relevant_ticks ticks_df last_round_tick in
            match find_our_team relevant (unique (name <$> relevant)) with
            | Found our_team =>
                if String.eqb winning_side our_team then 1%Z else 0%Z
            | NotFound => 0%Z      (* "defaulting to loss" *)
            | ModeRaises => count_rounds_fallback round_end_df
            end
        | None => count_rounds_fallback round_end_df
        end
    | None => 0%Z
    end
  else 0%Z.

(** [parse_map_stats] (lines 240-326).  [None] is the outer [except]. *)
Definition parse_map_stats (d : Demo) : option MapStats :=
  match header d with
  | None => None
  | Some header_map_name =>
      match round_end d with
      | Raises => None
      | parsed =>
          let round_end_df :=
            match parsed with Frame df => df | _ => empty_rounds end in
          Some {| map_name := default "unknown" header_map_name;
                  date_time := file_date_time d;
                  won := determine_won d round_end_df |}
      end
  end.

End Parser.

Export Parser.

(** ** The sink: tables and the [/api/upload] handler *)

Module Store.

(** Rows as the [INSERT] statements write them; [created_at] is filled in
    by the database and plays no part here. *)
Record MapRow := {
  map_match_id : string;
  map_row : MapStats
}.

Record PlayerRow := {
  player_match_id : string;
  player_row : PlayerStats;
  player_name : string
}.

Record DB := {
  map_stats_table : list MapRow;
  player_stats_table : list PlayerRow
}.

Definition empty_db : DB :=
  {| map_stats_table := []; player_stats_table := [] |}.

(** [SELECT COUNT( * ) FROM map_stats WHERE match_id = ?]. *)
Definition count_map_stats (db : DB) (id : string) : Z :=
  len (filter (λ r, map_match_id r = id) (map_stats_table db)).

(** Rows of [player_stats] that carry the match id. *)
Definition count_player_stats (db : DB) (id : string) : Z :=
  len (filter (λ r, player_match_id r = id) (player_stats_table db)).

(** [INSERT INTO map_stats]: the column [match_id] is [UNIQUE]
    (api_server.py, line 240); [None] is [sqlite3.IntegrityError]. *)
Definition insert_map_stats (id : string) (m : MapStats) (db : DB) : option DB :=
  if bool_decide (Exists (λ r, map_match_id r = id) (map_stats_table db))
  then None
  else Some {| map_stats_table :=
                 map_stats_table db ++ [ {| map_match_id := id; map_row := m |} ];
               player_stats_table := player_stats_table db |}.

(** [INSERT INTO player_stats]. *)
Definition insert_player_stats (id : string) (db : DB)
    (p : string * PlayerStats) : DB :=
  {| map_stats_table := map_stats_table db;
     player_stats_table :=
       player_stats_table db
         ++ [ {| player_match_id := id; player_row := p.2; player_name := p.1 |} ] |}.

(** The request body [MatchUpload] (api_server.py, lines 174-196) and the
    payload built by [upload_to_api] (parse_demo.py, lines 407-429). *)
Record MatchUpload := {
  match_id : string;
  player_stats : list (string * PlayerStats);
  map_stats : MapStats
}.

(** What the handler answers. *)
Inductive Reply :=
| Success (players_uploaded : Z)                 (* status 200 *)
| HTTPException (status_code : Z) (detail : string).

Definition reply_status (r : Reply) : Z :=
  match r with
  | Success _ => 200
  | HTTPException status_code _ => status_code
  end.

(** [upload_match_data] (api_server.py, lines 319-406) on a database that
    works.  A failed insert is never committed.  Lines 404-406 answer any
    other exception of the database layer with 500 as well; these are not
    modelled, and nothing below says when the handler answers 500. *)
Definition upload_match_data (db : DB) (match_data : MatchUpload) : Reply * DB :=
  if (0 <? count_map_stats db (match_id match_data))%Z then
    (HTTPException 409
       ("Match " ++ match_id match_data ++ " already exists in database"), db)
  else
    match insert_map_stats (match_id match_data) (map_stats match_data) db with
    | Some db1 =>
        let db2 :=
          foldl (insert_player_stats (match_id match_data)) db1
                (player_stats match_data) in
        (Success (len (player_stats match_data)), db2)
    | None =>
        (HTTPException 500 "Error uploading match data: UNIQUE constraint failed",
         db)
    end.

End Store.

Export Store.

(** ** Upload and the per-demo pipeline *)

Module Pipeline.

(** What [requests.post] gives back. *)
Inductive PostOutcome :=
| Response (status_code : Z) (text : string)
| RequestException
| OtherException.

(** The way from the client to the handler: the request reaches the
    handler and the handler's answer reaches the client; the request is
    answered before the handler (token check, geolocation, rate limit,
    body validation); the transport fails before the request arrives; or
    the handler runs and the client gets something else than its answer
    (the exception of the read timeout of line 441, the answer of a
    proxy). *)
Inductive Route :=
| Reaches
| Intercepted (status_code : Z) (text : string)
| TransportError
| ReplyLost (seen : PostOutcome).

Definition reply_text (r : Reply) : string :=
  match r with
  | Success _ => "success"
  | HTTPException _ detail => detail
  end.

Definition post (route : Route) (payload : MatchUpload) (db : DB)
  : PostOutcome * DB :=
  match route with
  | Reaches =>
      let '(r, db') := upload_match_data db payload in
      (Response (reply_status r) (reply_text r), db')
  | Intercepted status_code text => (Response status_code text, db)
  | TransportError => (RequestException, db)
  | ReplyLost seen => (seen, (upload_match_data db payload).2)
  end.

(** The lines the program prints, one constructor per [print]. *)
Inductive Msg :=
| MissingRequiredPlayers (missing : gset string)
| FoundPlayers (players : gset string)
| SkippingDemo
| AllRequiredFound
| MatchId (id : string)
| ExistsInDatabaseSkipping (id : string)
| ParsingPlayerStats
| FailedPlayerStats
| ParsedStatsFor (n : Z)
| ParsingMapStats
| FailedMapStats
| MapSummary (m : MapStats)
| ApiUrlRequired
| UploadingToApi (url : string)
| UploadingToDatabase
| UploadedViaApi (id : string)
| AlreadyExistsViaApi (id : string)
| ApiUploadFailed (status_code : Z) (text : string)
| ErrorUploadingToApi
| UnexpectedErrorUploadingToApi
| UploadedToDatabase (id : string)
| ErrorUploadingToDatabase
| SchedulingCleanup (path : string).

(** The payload of lines 407-429, rows in dictionary order. *)
Definition build_payload (id : string) (stats : gmap string PlayerStats)
    (m : MapStats) : MatchUpload :=
  {| match_id := id; player_stats := map_to_list stats; map_stats := m |}.

(** Lines 444-464 of [upload_to_api]: the returned flag and the line
    printed for each outcome of the request. *)
Definition check_response (id : string) (o : PostOutcome) : bool * Msg :=
  match o with
  | Response status_code text =>
      if (status_code =? 200)%Z then (true, UploadedViaApi id)
      else if (status_code =? 409)%Z then (false, AlreadyExistsViaApi id)
      else (false, ApiUploadFailed status_code text)
  | RequestException => (false, ErrorUploadingToApi)
  | OtherException => (false, UnexpectedErrorUploadingToApi)
  end.

(** [upload_to_api] (lines 403-464) against a sink holding [db]. *)
Definition upload_to_api (route : Route) (id : string)
    (stats : gmap string PlayerStats) (m : MapStats) (db : DB)
  : bool * Msg * DB :=
  let '(o, db') := post route (build_payload id stats m) db in
  (check_response id o, db').

(** [match_exists_in_db] (lines 329-347). *)
Definition match_exists_in_db (db : DB) (id : string) : bool :=
  (0 <? count_map_stats db id)%Z.

(** [upload_to_database] (lines 350-400); an [IntegrityError] is caught
    and nothing is committed. *)
Definition upload_to_database (id : string) (stats : gmap string PlayerStats)
    (m : MapStats) (db : DB) : bool * Msg * DB :=
  match insert_map_stats id m db with
  | Some db1 =>
      (true, UploadedToDatabase id,
       foldl (insert_player_stats id) db1 (map_to_list stats))
  | None => (false, ErrorUploadingToDatabase, db)
  end.

(** The arguments of [parse_demo_file] besides the recording. *)
Record Options := {
  use_api : bool;
  api_url : option string;
  route : Route;
  cleanup : bool
}.

(** What a run can touch: the sink behind the API, the local database,
    the printed lines (latest first) and the scheduled clean-ups. *)
Record World := {
  remote_db : DB;
  local_db : DB;
  printed : list Msg;
  cleanups : list string
}.

Definition say (msgs : list Msg) (w : World) : World :=
  {| remote_db := remote_db w; local_db := local_db w;
     printed := rev msgs ++ printed w; cleanups := cleanups w |}.

Definition set_remote (db : DB) (w : World) : World :=
  {| remote_db := db; local_db := local_db w;
     printed := printed w; cleanups := cleanups w |}.

Definition set_local (db : DB) (w : World) : World :=
  {| remote_db := remote_db w; local_db := db;
     printed := printed w; cleanups := cleanups w |}.

Definition schedule_cleanup (path : string) (w : World) : World :=
  {| remote_db := remote_db w; local_db := local_db w;
     printed := printed w; cleanups := path :: cleanups w |}.

(** Lines 511-527: upload, then the optional clean-up. *)
Definition upload_step (d : Demo) (o : Options) (id : string)
    (stats : gmap string PlayerStats) (m : MapStats) (w : World)
  : bool * World :=
  let upload : option (bool * World) :=
    if use_api o then
      if truthy (api_url o) then
        let '(success, line, db') :=
          upload_to_api (route o) id stats m (remote_db w) in
        Some (success,
              say [line]
                  (set_remote db' (say [UploadingToApi (default "" (api_url o))] w)))
      else None
    else
      let '(success, line, db') := upload_to_database id stats m (local_db w) in
      Some (success, say [line] (set_local db' (say [UploadingToDatabase] w)))
  in
  match upload with
  | None => (false, say [ApiUrlRequired] w)
  | Some (success, w') =>
      if success && cleanup o
      then (success, schedule_cleanup (stem d) (say [SchedulingCleanup (stem d)] w'))
      else (success, w')
  end.

(** [parse_demo_file] (lines 467-527). *)
Definition parse_demo_file (d : Demo) (o : Options) (w : World) : bool * World :=
  if negb (check_required_players d) then
    (false, say [MissingRequiredPlayers (missing_players d);
                 FoundPlayers (get_player_names d); SkippingDemo] w)
  else
    let id := get_match_id d in
    let w := say [AllRequiredFound; MatchId id] w in
    if negb (use_api o) && match_exists_in_db (local_db w) id then
      (false, say [ExistsInDatabaseSkipping id] w)
    else
      let w := say [ParsingPlayerStats] w in
      let stats := parse_player_stats d in
      if bool_decide (stats = ∅) then (false, say [FailedPlayerStats] w)
      else
        let w := say [ParsedStatsFor (Z.of_nat (size stats)); ParsingMapStats] w in
        match parse_map_stats d with
        | None => (false, say [FailedMapStats] w)
        | Some m => upload_step d o id stats m (say [MapSummary m] w)
        end.

(** The three counters of the loop of [main] (lines 620-638). *)
Record Tally := { successful : Z; skipped : Z; failed : Z }.

(** Lines 633-638 for one result.  [None] stands for a value that is
    neither true nor [False]. *)
Definition count_result (result : option bool) (t : Tally) : Tally :=
  match result with
  | Some true =>
      {| successful := successful t + 1; skipped := skipped t; failed := failed t |}
  | Some false =>
      {| successful := successful t; skipped := skipped t + 1; failed := failed t |}
  | None =>
      {| successful := successful t; skipped := skipped t; failed := failed t + 1 |}
  end.

(** The loop of [main] over the recordings found. *)
Fixpoint process_demos (demos : list Demo) (o : Options) (w : World) (t : Tally)
  : Tally * World :=
  match demos with
  | [] => (t, w)
  | d :: rest =>
      let '(result, w') := parse_demo_file d o w in
      process_demos rest o w' (count_result (Some result) t)
  end.

End Pipeline.

Export Pipeline.

(** ** The statements of the specification *)

Module Spec.

(** A name cell matches a player up to letter case. *)
Definition matches_ci (cell : option string) (player : string) : Prop :=
  lower <$> cell = Some (lower player).

(** A name cell holds exactly the player's name. *)
Definition matches_exact (cell : option string) (player : string) : Prop :=
  cell = Some player.

#[global] Instance matches_ci_dec cell player : Decision (matches_ci cell player).
Proof. unfold matches_ci. apply _. Defined.

#[global] Instance matches_exact_dec cell player :
  Decision (matches_exact cell player).
Proof. unfold matches_exact. apply _. Defined.

#[global] Typeclasses Opaque matches_ci matches_exact.

Section Counting.

(** The way a name cell is compared with a player's name. *)
Context (matches : option string → string → Prop)
        `{!∀ cell player, Decision (matches cell player)}.

(** Number of kill events whose attacker matches. *)
Definition kills_matching (d : Demo) (player : string) : Z :=
  len (filter (λ r, matches (attacker_name r) player)
              (kill_rows (kills_table d))).

(** Number of kill events whose victim matches. *)
Definition deaths_matching (d : Demo) (player : string) : Z :=
  len (filter (λ r, matches (user_name r) player)
              (kill_rows (kills_table d))).

(** Number of kill events whose attacker matches and whose headshot
    flag is set. *)
Definition headshots_matching (d : Demo) (player : string) : Z :=
  len (filter (λ r, matches (attacker_name r) player ∧ headshot r = true)
              (kill_rows (kills_table d))).

(** Sum of the damage amounts of the events whose attacker matches. *)
Definition damage_matching (d : Demo) (player : string) : Z :=
  match player_hurt d with
  | Frame df =>
      zsum (dmg_health <$>
              filter (λ r, matches (hurt_attacker_name r) player) (hurt_rows df))
  | NotFrame => 0
  | Raises => 0
  end.

End Counting.

(** Every name cell of the kill and damage tables that matches the player
    up to case is spelled like the player's name. *)
Definition consistent_case (d : Demo) (player : string) : Prop :=
  (∀ r, r ∈ kill_rows (kills_table d) →
        (matches_ci (attacker_name r) player → attacker_name r = Some player)
        ∧ (matches_ci (user_name r) player → user_name r = Some player))
  ∧ (∀ df r, player_hurt d = Frame df → r ∈ hurt_rows df →
        matches_ci (hurt_attacker_name r) player →
        hurt_attacker_name r = Some player).




(** A sample of the lookback window: one of the 1000 ticks up to the end
    of the last round. *)
Definition in_window (last_round_tick : Z) (r : TickRow) : Prop :=
  (last_round_tick - 1000 ≤ tick r ≤ last_round_tick)%Z.

#[global] Instance in_window_dec last_round_tick r :
  Decision (in_window last_round_tick r).
Proof. unfold in_window. apply _. Defined.







Inductive Tier := Ace | Quad | Triple | NoTier.

#[global] Instance Tier_eq_dec : EqDecision Tier.
Proof. solve_decision. Defined.




End Spec.

Export Spec.

(** ** Sample recordings *)

Module Samples.

Definition kill (attacker victim : string) (hs : bool) (t : Z) : KillRow :=
  {| attacker_name := Some attacker; user_name := Some victim;
     headshot := hs; kill_tick := t |}.

Definition hurt (attacker w : string) (amount : Z) : HurtRow :=
  {| hurt_attacker_name := Some attacker; weapon := w; dmg_health := amount |}.

Definition sample (t : Z) (player team : string) : TickRow :=
  {| tick := t; name := Some player; team_name := Some team |}.

Definition three_rounds : list RoundRow :=
  [ {| round_tick := 1000; round := 1; winner := "CT" |};
    {| round_tick := 2000; round := 2; winner := "T" |};
    {| round_tick := 3000; round := 3; winner := "CT" |} ].

Definition sample_kills : KillFrame :=
  {| kill_rows :=
       [ kill "nifty" "enemy1" true 500; kill "nifty" "enemy2" false 600;
         kill "nifty" "enemy3" true 700; kill "enemy1" "Dybbis" false 1500;
         kill "Togmannen" "enemy1" true 1600; kill "Stutmunn" "enemy2" false 2500;
         kill "martinsen" "enemy3" false 2600;
         {| attacker_name := None; user_name := Some "enemy4";
            headshot := false; kill_tick := 2700 |} ];
     has_attacker_name := true; has_user_name := true;
     has_headshot := true; has_kill_tick := true |}.

Definition sample_damage : HurtFrame :=
  {| hurt_rows :=
       [ hurt "nifty" "hegrenade" 50; hurt "nifty" "ak47" 40;
         hurt "Dybbis" "inferno" 8; hurt "enemy1" "ak47" 100 ];
     has_hurt_attacker_name := true; has_weapon := true;
     has_dmg_health := true |}.

Definition sample_rounds : RoundFrame :=
  {| round_rows := three_rounds; has_round_tick := true; has_round := true;
     has_winner := true |}.

Definition sample_ticks : list TickRow :=
  [ sample 10 "nifty" "TERRORIST"; sample 2800 "enemy1" "TERRORIST";
    sample 2800 "nifty" "CT"; sample 2900 "nifty" "CT";
    sample 2950 "nifty" "TERRORIST"; sample 2950 "Dybbis" "CT" ].

(** A recording with the whole roster and every table. *)
Definition full_demo : Demo :=
  {| stem := "2024_05_01_20_30";
     player_death := Frame sample_kills;
     player_hurt := Frame sample_damage;
     round_end := Frame sample_rounds;
     ticks := Some sample_ticks;
     header := Some (Some "de_dust2");
     file_date_time := "2024-05-01 20:30:00" |}.


(** The same recording with a sixth player whose name differs from a
    tracked one by letter case only. *)
Definition mixed_case_demo : Demo :=
  {| stem := stem full_demo;
     player_death :=
       Frame {| kill_rows :=
                  kill "NIFTY" "enemy2" true 800 :: kill "enemy1" "NIFTY" false 900
                    :: kill_rows sample_kills;
                has_attacker_name := true; has_user_name := true;
                has_headshot := true; has_kill_tick := true |};
     player_hurt :=
       Frame {| hurt_rows := hurt "NIFTY" "ak47" 27 :: hurt_rows sample_damage;
                has_hurt_attacker_name := true; has_weapon := true;
                has_dmg_health := true |};
     round_end := round_end full_demo;
     ticks := ticks full_demo;
     header := header full_demo;
     file_date_time := file_date_time full_demo |}.









(** The same recording when reading the header raises. *)
Definition no_header_demo : Demo :=
  {| stem := stem full_demo;
     player_death := player_death full_demo;
     player_hurt := player_hurt full_demo;
     round_end := round_end full_demo;
     ticks := ticks full_demo;
     header := None;
     file_date_time := file_date_time full_demo |}.

(** A recording in which one tracked player never appears. *)
Definition short_roster_demo : Demo :=
  {| stem := stem full_demo;
     player_death :=
       Frame {| kill_rows :=
                  [ kill "NIFTY" "dybbis" true 500;
                    kill "TOGMANNEN" "stutmunn" false 600 ];
                has_attacker_name := true; has_user_name := true;
                has_headshot := true; has_kill_tick := true |};
     player_hurt := player_hurt full_demo;
     round_end := round_end full_demo;
     ticks := ticks full_demo;
     header := header full_demo;
     file_date_time := file_date_time full_demo |}.

(** The payload the pipeline builds for the full sample recording. *)
Definition sample_payload : MatchUpload :=
  build_payload (get_match_id full_demo) (parse_player_stats full_demo)
    {| map_name := "de_dust2"; date_time := "2024-05-01 20:30:00"; won := 1 |}.

(** The sink after one delivery of the sample payload. *)
Definition stored_once : DB := (upload_match_data empty_db sample_payload).2.

Definition unreachable_options : Options :=
  {| use_api := true; api_url := Some "https://api.example.com";
     route := TransportError; cleanup := false |}.

(** A sink that answers the upload with an error of its own. *)
Definition failing_options : Options :=
  {| use_api := true; api_url := Some "https://api.example.com";
     route := Intercepted 500 "Internal Server Error"; cleanup := false |}.

Definition api_options : Options :=
  {| use_api := true; api_url := Some "https://api.example.com";
     route := Reaches; cleanup := false |}.

Definition fresh_world : World :=
  {| remote_db := empty_db; local_db := empty_db; printed := []; cleanups := [] |}.

End Samples.

Export Samples.

(** ** Further notions used in the statements *)

Module SpecMore.

(** Rows in the order of play: neither the end ticks nor the round numbers
    go down along the table. *)
Definition in_play_order (rows : list RoundRow) : Prop :=
  StronglySorted
    (λ a b, (round_tick a ≤ round_tick b)%Z ∧ (round a ≤ round b)%Z) rows.

(** The sum of the sizes of the groups of [groupby('round').size()]. *)
Definition group_total (m : gmap Z nat) : nat :=
  map_fold (λ _ c acc, (c + acc)%nat) 0%nat m.

(** No two rows of [map_stats] carry the same match id. *)
Definition unique_match_ids (db : DB) : Prop :=
  NoDup (map_match_id <$> map_stats_table db).

(** Every row of [player_stats] belongs to a match of [map_stats]. *)
Definition players_have_match (db : DB) : Prop :=
  ∀ r, r ∈ player_stats_table db →
       ∃ mr, mr ∈ map_stats_table db ∧ map_match_id mr = player_match_id r.

Definition consistent_store (db : DB) : Prop :=
  unique_match_ids db ∧ players_have_match db.

(** The [player_stats] row written for one entry of a payload. *)
Definition player_row_of (id : string) (p : string * PlayerStats) : PlayerRow :=
  {| player_match_id := id; player_row := p.2; player_name := p.1 |}.

(** The database an upload of a fresh match leaves behind. *)
Definition with_match (db : DB) (id : string) (ms : MapStats)
    (players : list (string * PlayerStats)) : DB :=
  {| map_stats_table :=
       map_stats_table db ++ [ {| map_match_id := id; map_row := ms |} ];
     player_stats_table :=
       player_stats_table db ++ (player_row_of id <$> players) |}.

(** The store a run writes to: the one behind the API, or the local one. *)
Definition sink (o : Options) (w : World) : DB :=
  if use_api o then remote_db w else local_db w.

(** The rows of the two tables that carry a match id. *)
Definition map_rows_of (db : DB) (id : string) : list MapRow :=
  filter (λ r, map_match_id r = id) (map_stats_table db).

Definition player_rows_of (db : DB) (id : string) : list PlayerRow :=
  filter (λ r, player_match_id r = id) (player_stats_table db).

(** Two worlds with the same stores and the same scheduled clean-ups. *)
Definition same_stores (w' w : World) : Prop :=
  remote_db w' = remote_db w ∧ local_db w' = local_db w
  ∧ cleanups w' = cleanups w.

(** The path of a run writes to a store of its own: the local database, or
    the handler reached without interception. *)
Definition direct_path (o : Options) : Prop :=
  use_api o = false ∨ route o = Reaches.

(** The client of a run sees the answer to its upload: the run writes to
    the local database, or the reply of the handler is not lost on the
    way. *)
Definition answer_seen (o : Options) : Prop :=
  use_api o = false ∨ ∀ seen, route o ≠ ReplyLost seen.

End SpecMore.

Export SpecMore.

(** ** The time stamp of a match (parse_demo.py, lines 302-316) *)

Module Identity.

(** [\d] on one character: among the code points below 256, which the
    strings of this model hold, the decimal digits are the ASCII digits. *)
Definition is_digit (c : ascii) : bool :=
  (48 <=? nat_of_ascii c)%nat && (nat_of_ascii c <=? 57)%nat.

(** [\d{n}] at the front of [s]: the digits matched and what follows. *)
Fixpoint take_digits (n : nat) (s : string) : option (string * string) :=
  match n with
  | O => Some (EmptyString, s)
  | S n' =>
      match s with
      | String c s' =>
          if is_digit c then
            match take_digits n' s' with
            | Some (ds, rest) => Some (String c ds, rest)
            | None => None
            end
          else None
      | EmptyString => None
      end
  end.

(** [_] at the front of [s]: what follows. *)
Definition take_underscore (s : string) : option string :=
  match s with
  | String c s' => if Ascii.eqb c "_"%char then Some s' else None
  | EmptyString => None
  end.

(** The five groups of the pattern of line 307. *)
Record Stamp := {
  year : string;
  month : string;
  day : string;
  hour : string;
  minute : string
}.

(** [re.match(r'(\d{4})_(\d{2})_(\d{2})_(\d{2})_(\d{2})', filename)]: the
    pattern is anchored at the start only. *)
Definition match_timestamp (filename : string) : option Stamp :=
  '(y, s) ← take_digits 4 filename;
  s ← take_underscore s;
  '(mo, s) ← take_digits 2 s;
  s ← take_underscore s;
  '(dd, s) ← take_digits 2 s;
  s ← take_underscore s;
  '(h, s) ← take_digits 2 s;
  s ← take_underscore s;
  '(mi, _) ← take_digits 2 s;
  Some {| year := y; month := mo; day := dd; hour := h; minute := mi |}.

(** Line 310: [f"{year}-{month}-{day} {hour}:{minute}:00"]. *)
Definition format_stamp (t : Stamp) : string :=
  year t ++ "-" ++ month t ++ "-" ++ day t ++ " " ++ hour t ++ ":"
    ++ minute t ++ ":00".

(** Lines 302-316: the [date_time] of a match, given the file name stem and
    the formatted modification time of the file. *)
Definition map_date_time (filename modified : string) : string :=
  match match_timestamp filename with
  | Some t => format_stamp t
  | None => modified
  end.

(** A string of decimal digits. *)
Fixpoint all_digits (s : string) : bool :=
  match s with
  | EmptyString => true
  | String c s' => is_digit c && all_digits s'
  end.

(** [n] decimal digits. *)
Definition digits (n : nat) (s : string) : Prop :=
  String.length s = n ∧ all_digits s = true.

(** The file name that a time stamp and a remainder spell. *)
Definition stamped_name (t : Stamp) (rest : string) : string :=
  year t ++ "_" ++ month t ++ "_" ++ day t ++ "_" ++ hour t ++ "_"
    ++ minute t ++ rest.

End Identity.

Export Identity.

(** ** The security middleware in front of the handlers
       (combined_security_middleware.py)

    Header values reach the middleware as strings of code points below
    256.  The geolocation cache and the remote lookup are inputs of the
    model: what [geo_cache.get] returned and how the lookup ended.  The
    rate limiter and the validation of the request body are not modelled. *)

Module Security.

(** [str.isspace] on a code point below 256. *)
Definition is_space (c : ascii) : bool :=
  let n := nat_of_ascii c in
  ((9 <=? n)%nat && (n <=? 13)%nat) || ((28 <=? n)%nat && (n <=? 32)%nat)
  || (n =? 133)%nat || (n =? 160)%nat.

(** The string begins with a character that is not white space. *)
Definition starts_word (s : string) : bool :=
  match s with
  | String c _ => negb (is_space c)
  | EmptyString => false
  end.

(** [str.split()]: the maximal runs of characters that are not white
    space. *)
Fixpoint str_split (s : string) : list string :=
  match s with
  | EmptyString => []
  | String c s' =>
      if is_space c then str_split s'
      else if starts_word s' then
        match str_split s' with
        | w :: ws => String c w :: ws
        | [] => [String c EmptyString]
        end
      else String c EmptyString :: str_split s'
  end.

(** [s.split(",")[0]]: what comes before the first comma. *)
Fixpoint before_comma (s : string) : string :=
  match s with
  | EmptyString => EmptyString
  | String c s' =>
      if Ascii.eqb c ","%char then EmptyString else String c (before_comma s')
  end.

(** [str.lstrip()], [str.rstrip()] and [str.strip()]. *)
Fixpoint lstrip (s : string) : string :=
  match s with
  | EmptyString => EmptyString
  | String c s' => if is_space c then lstrip s' else s
  end.

Fixpoint rstrip (s : string) : string :=
  match s with
  | EmptyString => EmptyString
  | String c s' =>
      match rstrip s' with
      | EmptyString => if is_space c then EmptyString else String c EmptyString
      | r => String c r
      end
  end.

Definition strip (s : string) : string := rstrip (lstrip s).

(** Only ASCII characters: what [secrets.compare_digest] accepts in a
    [str]. *)
Fixpoint is_ascii (s : string) : bool :=
  match s with
  | EmptyString => true
  | String c s' => (nat_of_ascii c <? 128)%nat && is_ascii s'
  end.

(** [', '.join(items)]. *)
Fixpoint join_comma (items : list string) : string :=
  match items with
  | [] => EmptyString
  | [x] => x
  | x :: rest => x ++ ", " ++ join_comma rest
  end.

(** The parts of a request that the middleware reads. *)
Record Request := {
  path : string;                      (* request.url.path *)
  authorization : option string;      (* headers.get("Authorization") *)
  x_forwarded_for : option string;    (* headers.get("X-Forwarded-For") *)
  x_real_ip : option string;          (* headers.get("X-Real-IP") *)
  client_host : option string         (* request.client.host, if any *)
}.

(** The configured middleware, after [__init__]. *)
Record Middleware := {
  token_auth_enabled : bool;
  api_token : option string;
  geolocation_enabled : bool;
  allowed_countries : list string;
  exempt_paths : list string
}.

(** Lines 106-112. *)
Definition default_exempt_paths : list string :=
  ["/"; "/health"; "/docs"; "/openapi.json"; "/redoc"].

(** [x or default] on an optional list: [None] and the empty list give the
    default. *)
Definition or_default {A} (x : option (list A)) (default : list A) : list A :=
  match x with
  | Some (y :: ys) => y :: ys
  | _ => default
  end.

(** [__init__] (lines 61-115); [None] is the [ValueError] of line 95. *)
Definition make_middleware (token_enabled : bool) (token : option string)
    (geo_enabled : bool) (countries : option (list string))
    (exempt : option (list string)) : option Middleware :=
  if token_enabled && negb (truthy token) then None
  else Some {| token_auth_enabled := token_enabled;
               api_token := token;
               geolocation_enabled := geo_enabled;
               allowed_countries := or_default countries ["NO"];
               exempt_paths := or_default exempt default_exempt_paths |}.

(** How [_verify_token] ends. *)
Inductive TokenCheck :=
| TokenOk
| TokenRejected (detail : string)     (* HTTPException, status 401 *)
| TokenTypeError.                     (* compare_digest on non-ASCII text *)

(** [_verify_token] (lines 195-232).  The scheme is compared with an ASCII
    word, so that lower-casing the ASCII letters decides the comparison. *)
Definition verify_token (expected : option string) (auth_header : option string)
  : TokenCheck :=
  if negb (truthy auth_header) then TokenRejected "Missing Authorization header"
  else
    match str_split (default "" auth_header) with
    | [scheme; token] =>
        if String.eqb (lower scheme) "bearer" then
          match expected with
          | Some api_token =>
              if is_ascii token && is_ascii api_token then
                if String.eqb token api_token then TokenOk
                else TokenRejected "Invalid API token"
              else TokenTypeError
          | None => TokenTypeError
          end
        else
          TokenRejected
            "Invalid Authorization header format. Expected: Bearer <token>"
    | _ =>
        TokenRejected
          "Invalid Authorization header format. Expected: Bearer <token>"
    end.

(** [_get_client_ip] (lines 260-273). *)
Definition get_client_ip (req : Request) : string :=
  if truthy (x_forwarded_for req)
  then strip (before_comma (default "" (x_forwarded_for req)))
  else if truthy (x_real_ip req) then strip (default "" (x_real_ip req))
  else default "127.0.0.1" (client_host req).

(** [_is_local_ip] (lines 275-278). *)
Definition local_patterns : list string :=
  ["127."; "localhost"; "::1"; "192.168."; "10."; "172."].

Definition is_local_ip (ip : string) : bool :=
  existsb (λ pattern, String.prefix pattern ip) local_patterns.

(** How [_lookup_country] ends before its [except]: with a return value,
    possibly [None], or with an exception. *)
Inductive LookupOutcome :=
| Answer (country_code : option string)
| LookupError.

(** [_lookup_country] (lines 280-307): on an exception the first allowed
    country is returned. *)
Definition lookup_country (mw : Middleware) (outcome : LookupOutcome)
  : option string :=
  match outcome with
  | Answer country_code => country_code
  | LookupError => Some (default "NO" (head (allowed_countries mw)))
  end.

(** [_verify_geolocation] (lines 234-258): [true] when no exception is
    raised.  [cached] is what [geo_cache.get] returned. *)
Definition verify_geolocation (mw : Middleware) (cached : option string)
    (outcome : LookupOutcome) : bool :=
  let country_code :=
    match cached with
    | Some c => Some c
    | None => lookup_country mw outcome
    end in
  match country_code with
  | Some c => bool_decide (c ∈ allowed_countries mw)
  | None => false
  end.

(** How [dispatch] ends. *)
Inductive Verdict :=
| CallNext                                         (* the handler runs *)
| ErrorResponse (status_code : Z) (detail : string)
| Unhandled.                                       (* an exception escapes *)

(** [dispatch] (lines 117-158). *)
Definition dispatch (mw : Middleware) (cached : option string)
    (outcome : LookupOutcome) (req : Request) : Verdict :=
  if bool_decide (path req ∈ exempt_paths mw) then CallNext
  else
    let token_check :=
      if token_auth_enabled mw
      then verify_token (api_token mw) (authorization req) else TokenOk in
    match token_check with
    | TokenRejected detail => ErrorResponse 401 detail
    | TokenTypeError => Unhandled
    | TokenOk =>
        if geolocation_enabled mw
           && negb (is_local_ip (get_client_ip req))
           && negb (verify_geolocation mw cached outcome)
        then ErrorResponse 403
               ("Access denied: API only accessible from "
                  ++ join_comma (allowed_countries mw))
        else CallNext
    end.

(** The header the client sends (parse_demo.py, lines 432-434). *)
Definition client_authorization (token : option string) : option string :=
  if truthy token then Some ("Bearer " ++ default "" token) else None.

(** The request of [upload_to_api] as the middleware sees it. *)
Definition upload_request (token : option string) (forwarded real host : option string)
  : Request :=
  {| path := "/api/upload"; authorization := client_authorization token;
     x_forwarded_for := forwarded; x_real_ip := real; client_host := host |}.

(** A string without white space. *)
Fixpoint no_space (s : string) : bool :=
  match s with
  | EmptyString => true
  | String c s' => negb (is_space c) && no_space s'
  end.

End Security.

Export Security.

(** ** Further sample recordings *)

Module SamplesMore.

(** The full sample recording when the parser gives no kill table. *)
Definition no_kills_demo : Demo :=
  {| stem := stem full_demo;
     player_death := NotFrame;
     player_hurt := player_hurt full_demo;
     round_end := round_end full_demo;
     ticks := ticks full_demo;
     header := header full_demo;
     file_date_time := file_date_time full_demo |}.

(** The full sample recording when the parser gives no round table. *)
Definition no_rounds_demo : Demo :=
  {| stem := stem full_demo;
     player_death := player_death full_demo;
     player_hurt := player_hurt full_demo;
     round_end := NotFrame;
     ticks := ticks full_demo;
     header := header full_demo;
     file_date_time := file_date_time full_demo |}.

(** The full sample recording with the samples from tick 2000 on only. *)
Definition late_samples (r : TickRow) : bool := (2000 <=? tick r)%Z.

Definition late_samples_demo : Demo :=
  {| stem := stem full_demo;
     player_death := player_death full_demo;
     player_hurt := player_hurt full_demo;
     round_end := round_end full_demo;
     ticks := Some (filter (λ r, late_samples r = true) sample_ticks);
     header := header full_demo;
     file_date_time := file_date_time full_demo |}.

(** An upload that arrives while the client's read times out. *)
Definition lost_reply_options : Options :=
  {| use_api := true; api_url := Some "https://api.example.com";
     route := ReplyLost RequestException; cleanup := false |}.

End SamplesMore.

Export SamplesMore.

(** * Properties *)

(** ** Round lookup *)

Section RoundLookup.

Implicit Types (rows : list RoundRow) (t : Z).

Lemma scan_rounds_first rows t i row :
  rows !! i = Some row →
  (t ≤ round_tick row)%Z →
  (∀ j row', (j < i)%nat → rows !! j = Some row' → (round_tick row' < t)%Z) →
  scan_rounds rows t = Some (round row).
Proof.
  revert i. induction rows as [|r rows IH]; intros i Hi Hle Hbefore.
  - by rewrite lookup_nil in Hi.
  - destruct i as [|i]; simpl in *.
    + injection Hi as ->. by rewrite (proj2 (Z.leb_le t (round_tick row)) Hle).
    + assert (round_tick r < t)%Z as Hr by (apply (Hbefore 0%nat); [lia|done]).
      rewrite (proj2 (Z.leb_gt t (round_tick r)) Hr).
      apply (IH i); [done..|].
      intros j row' Hj Hrow'. apply (Hbefore (S j)); [lia|done].
Qed.

Lemma scan_rounds_beyond rows t :
  (∀ row, row ∈ rows → (round_tick row < t)%Z) → scan_rounds rows t = None.
Proof.
  induction rows as [|r rows IH]; intros Hall; [done|]. simpl.
  rewrite (proj2 (Z.leb_gt t (round_tick r))); [|apply Hall; left].
  apply IH. intros row Hrow. apply Hall. by right.
Qed.

Lemma scan_rounds_Some rows t r :
  scan_rounds rows t = Some r →
  ∃ row, row ∈ rows ∧ round row = r ∧ (t ≤ round_tick row)%Z.
Proof.
  induction rows as [|row rows IH]; [done|]. simpl.
  destruct (t <=? round_tick row)%Z eqn:Hle.
  - intros [= <-]. exists row. split; [left|]. split; [done|]. by apply Z.leb_le.
  - intros (row' & ? & ? & ?)%IH. exists row'. split; [by right|done].
Qed.

(** The lookup answers on every table that has a row. *)
Lemma get_round_for_tick_total rows t :
  rows ≠ [] → is_Some (get_round_for_tick rows t).
Proof.
  intros Hne. unfold get_round_for_tick.
  destruct (scan_rounds rows t); [by eexists|].
  apply last_is_Some in Hne as [row ->]. by eexists.
Qed.

(** The answer is the round of some row of the table. *)
Lemma get_round_for_tick_elem rows t r :
  get_round_for_tick rows t = Some r → ∃ row, row ∈ rows ∧ round row = r.
Proof.
  unfold get_round_for_tick.
  destruct (scan_rounds rows t) as [r'|] eqn:Hscan.
  - intros [= <-]. apply scan_rounds_Some in Hscan as (row & ? & ? & ?). eauto.
  - destruct (last rows) as [row|] eqn:Hlast; [|done].
    intros [= <-]. exists row. split; [|done]. by apply last_Some_elem_of.
Qed.

(** C2.  On a table of round boundaries that has at least one row,
    [get_round_for_tick] returns the round number of the first row whose
    end tick is greater than or equal to the event tick, and the round
    number of the last row when the event tick is beyond every end tick.
    The order of the ticks is not needed for either part. *)
Theorem get_round_for_tick_spec rows t :
  rows ≠ [] →
  (∀ i row,
      rows !! i = Some row →
      (t ≤ round_tick row)%Z →
      (∀ j row', (j < i)%nat → rows !! j = Some row' → (round_tick row' < t)%Z) →
      get_round_for_tick rows t = Some (round row))
  ∧ ((∀ row, row ∈ rows → (round_tick row < t)%Z) →
     ∃ last_row, last rows = Some last_row
                 ∧ get_round_for_tick rows t = Some (round last_row)).
Proof.
  intros Hne. split.
  - intros i row Hi Hle Hbefore. unfold get_round_for_tick.
    by rewrite (scan_rounds_first rows t i row).
  - intros Hall. apply last_is_Some in Hne as [last_row Hlast].
    exists last_row. split; [done|]. unfold get_round_for_tick.
    by rewrite scan_rounds_beyond, Hlast.
Qed.

End RoundLookup.

(** The lookup on a table of three rounds: tick 1500 falls in round 2, tick
    9000 lies beyond the last boundary and is given round 3. *)
Lemma get_round_for_tick_spec_witness :
  three_rounds ≠ []
  ∧ get_round_for_tick three_rounds 1500 = Some 2%Z
  ∧ get_round_for_tick three_rounds 9000 = Some 3%Z.
Proof.
  assert (three_rounds ≠ []) as Hne by done.
  split; [done|]. split.
  - destruct (get_round_for_tick_spec three_rounds 1500 Hne) as [Hfirst _].
    apply (Hfirst 1%nat {| round_tick := 2000; round := 2; winner := "T" |});
      [reflexivity|simpl; lia|].
    intros [|j] row' Hj Hrow; [|lia].
    cbv in Hrow. injection Hrow as <-. simpl; lia.
  - destruct (get_round_for_tick_spec three_rounds 9000 Hne) as [_ Hlast].
    destruct Hlast as (last_row & Heq & Hres);
      [|cbv in Heq; injection Heq as <-; exact Hres].
    intros row Hrow. unfold three_rounds in Hrow.
    repeat (apply elem_of_cons in Hrow as [->|Hrow]; [simpl; lia|]).
    by apply elem_of_nil in Hrow.
Defined.

(** ** The roster check *)

Section Roster.

Implicit Types (d : Demo) (p r x : string).

Lemma elem_of_lower_set (names : gset string) x :
  x ∈ lower_set names ↔ ∃ p, p ∈ names ∧ x = lower p.
Proof.
  unfold lower_set. rewrite elem_of_map. split.
  - intros (p & -> & Hp). by exists p.
  - intros (p & Hp & ->). by exists p.
Qed.

Lemma elem_of_missing_players d x :
  x ∈ missing_players d ↔
    (∃ r, r ∈ REQUIRED_PLAYERS ∧ x = lower r)
    ∧ ∀ p, p ∈ get_player_names d → lower p ≠ x.
Proof.
  unfold missing_players.
  rewrite elem_of_difference, !elem_of_lower_set. split.
  - intros [Hreq Hnone]. split; [done|].
    intros p Hp Heq. apply Hnone. by exists p.
  - intros [Hreq Hnone]. split; [done|].
    intros (p & Hp & ->). by apply (Hnone p).
Qed.

Lemma check_required_players_true d :
  check_required_players d = true ↔
    ∀ r, r ∈ REQUIRED_PLAYERS → ∃ p, p ∈ get_player_names d ∧ lower p = lower r.
Proof.
  unfold check_required_players. rewrite bool_decide_eq_true. split.
  - intros Hempty r Hr.
    destruct (decide (lower r ∈ lower_set (get_player_names d))) as [Hin|Hout].
    + apply elem_of_lower_set in Hin as (p & ? & ?). eauto.
    + assert (lower r ∈ missing_players d) as Hmiss.
      { unfold missing_players. apply elem_of_difference. split; [|done].
        apply elem_of_lower_set. eauto. }
      rewrite Hempty in Hmiss.
      destruct (not_elem_of_empty (C:=gset string) (lower r) Hmiss).
  - intros Hall. apply set_eq. intros x. rewrite elem_of_missing_players.
    split; [|intros Hx; destruct (not_elem_of_empty (C:=gset string) x Hx)].
    intros [(r & Hr & ->) Hnone].
    destruct (Hall r Hr) as (p & Hp & Heq). by destruct (Hnone p Hp).
Qed.

(** A tracked name that is observed in some spelling. *)
Lemma tracked_of_required p r :
  r ∈ REQUIRED_PLAYERS → lower p = lower r → tracked p.
Proof.
  intros Hr Heq. unfold tracked. rewrite Heq. apply elem_of_lower_set. eauto.
Qed.

Lemma parse_demo_file_skip d o w :
  check_required_players d = false →
  parse_demo_file d o w =
    (false, say [MissingRequiredPlayers (missing_players d);
                 FoundPlayers (get_player_names d); SkippingDemo] w).
Proof. intros Hcheck. unfold parse_demo_file. by rewrite Hcheck. Qed.

(** C8.  The roster check passes exactly when every name of
    [REQUIRED_PLAYERS] is observed in the kill table up to letter case.
    The reported set of missing names holds the lower-cased tracked names
    that no observed name matches.  When the check fails,
    [parse_demo_file] returns [False] after printing the missing names,
    the found names and the skip notice: no statistics are parsed, and
    neither store is touched. *)
Theorem roster_check_spec d :
  (check_required_players d = true ↔
     ∀ r, r ∈ REQUIRED_PLAYERS → ∃ p, p ∈ get_player_names d ∧ lower p = lower r)
  ∧ (∀ x, x ∈ missing_players d ↔
       (∃ r, r ∈ REQUIRED_PLAYERS ∧ x = lower r)
       ∧ ∀ p, p ∈ get_player_names d → lower p ≠ x)
  ∧ (check_required_players d = false →
     missing_players d ≠ ∅
     ∧ ∀ o w, ∃ w',
         parse_demo_file d o w = (false, w')
         ∧ remote_db w' = remote_db w
         ∧ local_db w' = local_db w
         ∧ cleanups w' = cleanups w
         ∧ printed w' =
             ([SkippingDemo; FoundPlayers (get_player_names d);
               MissingRequiredPlayers (missing_players d)] ++ printed w)%list).
Proof.
  split; [apply check_required_players_true|].
  split; [apply elem_of_missing_players|].
  intros Hcheck. split.
  - unfold check_required_players in Hcheck.
    by apply bool_decide_eq_false in Hcheck.
  - intros o w. eexists. split; [by apply parse_demo_file_skip|].
    unfold say; simpl. repeat split.
Qed.

End Roster.

(** ** Per-player statistics *)

Section PlayerStatistics.

Implicit Types (d : Demo) (p : string) (st : PlayerStats).

(** The dictionary holds exactly the observed names that are tracked, each
    with the statistics computed by the loop body. *)
Lemma parse_player_stats_lookup d p st :
  parse_player_stats d !! p = Some st ↔
    p ∈ get_player_names d ∧ tracked p ∧ st = stats_of d (kills_table d) p.
Proof.
  assert (∀ X : gset string,
    set_to_map (M:=gmap string PlayerStats)
      (λ player, (player, stats_of d (kills_table d) player)) (filter tracked X)
      !! p = Some st ↔
    p ∈ X ∧ tracked p ∧ st = stats_of d (kills_table d) p) as Hmap.
  { intros X. rewrite lookup_set_to_map; [|by intros y y' _ _ Heq]. split.
    - intros (y & Hy & Heq). injection Heq as -> <-.
      apply elem_of_filter in Hy as [? ?]. by split_and!.
    - intros (HX & Htr & ->). exists p. split; [|reflexivity].
      apply elem_of_filter. by split. }
  unfold parse_player_stats, get_player_names in *.
  destruct (player_death d) eqn:Hpd.
  - apply Hmap.
  - apply Hmap.
  - rewrite lookup_empty. split; [by intros [=]|].
    intros [Hin _]. destruct (not_elem_of_empty (C:=gset string) p Hin).
Qed.

Lemma stats_of_dmg d kills_df p :
  dmg (stats_of d kills_df p) = (damage_of (damage_table d) p).1.
Proof.
  unfold stats_of. destruct (damage_of _ _), (multi_kills _ _ _) as [[? ?] ?].
  reflexivity.
Qed.

Lemma stats_of_utility_dmg d kills_df p :
  utility_dmg (stats_of d kills_df p) = (damage_of (damage_table d) p).2.
Proof.
  unfold stats_of. destruct (damage_of _ _), (multi_kills _ _ _) as [[? ?] ?].
  reflexivity.
Qed.

Lemma stats_of_kills d kills_df p :
  kills_total (stats_of d kills_df p) = count_kills kills_df p
  ∧ deaths_total (stats_of d kills_df p) = count_deaths kills_df p
  ∧ headshot_kills_total (stats_of d kills_df p) = count_headshot_kills kills_df p.
Proof.
  unfold stats_of. destruct (damage_of _ _), (multi_kills _ _ _) as [[? ?] ?].
  by repeat split.
Qed.

Lemma stats_of_multi_kills d kills_df p :
  (ace_rounds_total (stats_of d kills_df p),
   quad_rounds_total (stats_of d kills_df p),
   triple_rounds_total (stats_of d kills_df p)) = multi_kills d kills_df p.
Proof.
  unfold stats_of. destruct (damage_of _ _), (multi_kills _ _ _) as [[? ?] ?].
  reflexivity.
Qed.

(** *** Damage sums *)

Lemma zsum_nonneg (l : list Z) :
  Forall (λ x, (0 ≤ x)%Z) l → (0 ≤ zsum l)%Z.
Proof. induction 1; simpl; lia. Qed.

Lemma zsum_filter_le {A} (f : A → Z) (P : A → Prop) `{!∀ x, Decision (P x)}
    (l : list A) :
  Forall (λ x, (0 ≤ f x)%Z) l →
  (zsum (f <$> filter P l) ≤ zsum (f <$> l))%Z.
Proof.
  induction 1 as [|x l Hx Hl IH]; [done|].
  rewrite filter_cons. destruct (decide (P x)); csimpl; unfold zsum in *; simpl; lia.
Qed.

Lemma damage_of_utility_le (damage_df : option HurtFrame) p :
  (∀ df r, damage_df = Some df → r ∈ hurt_rows df → (0 ≤ dmg_health r)%Z) →
  ((damage_of damage_df p).2 ≤ (damage_of damage_df p).1)%Z.
Proof.
  intros Hnonneg. unfold damage_of.
  destruct damage_df as [df|]; [|done].
  destruct (negb (is_empty (hurt_rows df)) && has_hurt_attacker_name df); [|done].
  assert (Forall (λ r, (0 ≤ dmg_health r)%Z)
            (filter (λ r, hurt_attacker_name r = Some p) (hurt_rows df))) as Hall.
  { apply Forall_forall. intros r Hr%list_elem_of_filter.
    apply (Hnonneg df); [done|]. by destruct Hr. }
  destruct (has_weapon df), (has_dmg_health df); simpl; try lia.
  - by apply zsum_filter_le.
  - apply zsum_nonneg. by apply Forall_fmap.
Qed.

(** C10.  For every player of the computed statistics, when no cell of
    the [dmg_health] column is negative, [utility_dmg] is at most [dmg]:
    the utility sum ranges over the weapon-filtered part of the rows
    that make up the total. *)
Theorem utility_dmg_le_dmg d p st :
  parse_player_stats d !! p = Some st →
  (∀ df r, player_hurt d = Frame df → r ∈ hurt_rows df → (0 ≤ dmg_health r)%Z) →
  (utility_dmg st ≤ dmg st)%Z.
Proof.
  intros (_ & _ & ->)%parse_player_stats_lookup Hnonneg.
  rewrite stats_of_dmg, stats_of_utility_dmg.
  apply damage_of_utility_le. intros df r Hdf Hr.
  apply (Hnonneg df); [|done].
  unfold damage_table in Hdf. by destruct (player_hurt d); simplify_eq.
Qed.

End PlayerStatistics.

(** On the full sample recording the player "nifty" dealt 90 damage, 50
    of it with utility. *)
Lemma utility_dmg_le_dmg_witness :
  ∃ st, parse_player_stats full_demo !! "nifty" = Some st
        ∧ (utility_dmg st ≤ dmg st)%Z.
Proof.
  eexists. split; [vm_compute; reflexivity|].
  apply (utility_dmg_le_dmg full_demo "nifty"); [vm_compute; reflexivity|].
  intros df r Hdf Hr. injection Hdf as <-. simpl in Hr.
  repeat (apply elem_of_cons in Hr as [->|Hr]; [simpl; lia|]).
  destruct (not_elem_of_nil _ Hr).
Defined.

(** ** Missing damage telemetry *)

Section PartialTelemetry.

Implicit Types (d : Demo) (p : string) (st : PlayerStats).


(** A demo that passes the roster check has a tracked player among the
    observed names. *)
Lemma check_required_players_inhabited d :
  check_required_players d = true →
  ∃ p, p ∈ get_player_names d ∧ tracked p.
Proof.
  intros Hcheck.
  assert ("nifty" ∈ REQUIRED_PLAYERS) as Hreq.
  { unfold REQUIRED_PLAYERS. rewrite !elem_of_union, !elem_of_singleton. tauto. }
  destruct (proj1 (check_required_players_true d) Hcheck _ Hreq) as (p & Hp & Heq).
  exists p. split; [exact Hp|]. exact (tracked_of_required p "nifty" Hreq Heq).
Qed.



End PartialTelemetry.


(** ** How names are matched when counting *)

(** C6, as stated, fails.  In a recording where "nifty" and "NIFTY" are two
    players, the entry of "nifty" has 3 kills, 0 deaths, 2 headshot kills
    and 90 damage, while 4 kill events, 1 death, 3 headshot kills and 117
    damage match that name up to letter case. *)
Lemma counts_are_case_sensitive :
  check_required_players mixed_case_demo = true
  ∧ parse_player_stats mixed_case_demo !! "nifty"
    = Some {| kills_total := 3; deaths_total := 0; dmg := 90; utility_dmg := 50;
              headshot_kills_total := 2; ace_rounds_total := 0;
              quad_rounds_total := 0; triple_rounds_total := 1; mvps := 0 |}
  ∧ kills_matching matches_ci mixed_case_demo "nifty" = 4%Z
  ∧ deaths_matching matches_ci mixed_case_demo "nifty" = 1%Z
  ∧ headshots_matching matches_ci mixed_case_demo "nifty" = 3%Z
  ∧ damage_matching matches_ci mixed_case_demo "nifty" = 117%Z.
Proof. repeat split; vm_compute; reflexivity. Qed.

Section ExactNames.

Implicit Types (d : Demo) (p : string) (st : PlayerStats).

Lemma filter_ext_elem_of {A} (P Q : A → Prop)
    `{!∀ x, Decision (P x)} `{!∀ x, Decision (Q x)} (l : list A) :
  (∀ x, x ∈ l → (P x ↔ Q x)) → filter P l = filter Q l.
Proof.
  induction l as [|x l IH]; intros Hext; [done|].
  rewrite !filter_cons.
  assert (P x ↔ Q x) as HPQ by (apply Hext; left).
  rewrite IH; [|intros y Hy; apply Hext; by right].
  destruct (decide (P x)), (decide (Q x)); tauto.
Qed.

Lemma matches_exact_ci cell p : matches_exact cell p → matches_ci cell p.
Proof. unfold matches_exact, matches_ci. by intros ->. Qed.

Lemma count_kills_exact d p :
  has_attacker_name (kills_table d) = true →
  count_kills (kills_table d) p = kills_matching matches_exact d p.
Proof.
  intros Hcol. unfold count_kills, kills_matching, matches_exact.
  rewrite Hcol. by destruct (kill_rows (kills_table d)).
Qed.

Lemma count_deaths_exact d p :
  has_user_name (kills_table d) = true →
  count_deaths (kills_table d) p = deaths_matching matches_exact d p.
Proof.
  intros Hcol. unfold count_deaths, deaths_matching, matches_exact.
  rewrite Hcol. by destruct (kill_rows (kills_table d)).
Qed.

Lemma count_headshot_kills_exact d p :
  has_attacker_name (kills_table d) = true →
  has_headshot (kills_table d) = true →
  count_headshot_kills (kills_table d) p = headshots_matching matches_exact d p.
Proof.
  intros Hcol Hhs. unfold count_headshot_kills, headshots_matching, matches_exact.
  rewrite Hcol, Hhs. by destruct (kill_rows (kills_table d)).
Qed.

Lemma damage_of_exact d p :
  (∀ df, player_hurt d = Frame df →
         has_hurt_attacker_name df = true ∧ has_dmg_health df = true) →
  (damage_of (damage_table d) p).1 = damage_matching matches_exact d p.
Proof.
  intros Hcols. unfold damage_of, damage_table, damage_matching, matches_exact.
  destruct (player_hurt d) as [df| |]; [|done..].
  destruct (Hcols df eq_refl) as [-> ->].
  by destruct (hurt_rows df).
Qed.

Lemma matching_ci_exact d p :
  consistent_case d p →
  kills_matching matches_ci d p = kills_matching matches_exact d p
  ∧ deaths_matching matches_ci d p = deaths_matching matches_exact d p
  ∧ headshots_matching matches_ci d p = headshots_matching matches_exact d p
  ∧ damage_matching matches_ci d p = damage_matching matches_exact d p.
Proof.
  intros [Hkills Hhurt].
  unfold kills_matching, deaths_matching, headshots_matching, damage_matching.
  split_and!.
  - f_equal. apply filter_ext_elem_of. intros r Hr. split.
    + apply (Hkills r Hr).
    + apply matches_exact_ci.
  - f_equal. apply filter_ext_elem_of. intros r Hr. split.
    + apply (Hkills r Hr).
    + apply matches_exact_ci.
  - f_equal. apply filter_ext_elem_of. intros r Hr. split.
    + intros [Hm ?]. split; [|done]. by apply (Hkills r Hr).
    + intros [Hm ?]. split; [|done]. by apply matches_exact_ci.
  - destruct (player_hurt d) as [df| |] eqn:Hdf; [|done..].
    do 2 f_equal. apply filter_ext_elem_of. intros r Hr. split.
    + by apply (Hhurt df r).
    + apply matches_exact_ci.
Qed.

(** C6, amended.  For each player of the statistics (a tracked name as
    it is spelled in the kill table), when the kill table has the
    attacker, victim and headshot columns and a damage table that was
    read has the attacker and amount columns: kills, deaths, headshot
    kills and total damage count the events whose name cell is exactly
    that spelling.  They agree with the counts taken up to letter case
    whenever every name cell that matches the player up to case is
    spelled like the player's name. *)
Theorem stats_count_exact_names d p st :
  parse_player_stats d !! p = Some st →
  has_attacker_name (kills_table d) = true →
  has_user_name (kills_table d) = true →
  has_headshot (kills_table d) = true →
  (∀ df, player_hurt d = Frame df →
         has_hurt_attacker_name df = true ∧ has_dmg_health df = true) →
  (kills_total st = kills_matching matches_exact d p
   ∧ deaths_total st = deaths_matching matches_exact d p
   ∧ headshot_kills_total st = headshots_matching matches_exact d p
   ∧ dmg st = damage_matching matches_exact d p)
  ∧ (consistent_case d p →
     kills_total st = kills_matching matches_ci d p
     ∧ deaths_total st = deaths_matching matches_ci d p
     ∧ headshot_kills_total st = headshots_matching matches_ci d p
     ∧ dmg st = damage_matching matches_ci d p).
Proof.
  intros (_ & _ & ->)%parse_player_stats_lookup Hatt Huser Hhs Hhurt.
  destruct (stats_of_kills d (kills_table d) p) as (Hk & Hd & Hh).
  assert (kills_total (stats_of d (kills_table d) p) = kills_matching matches_exact d p
   ∧ deaths_total (stats_of d (kills_table d) p) = deaths_matching matches_exact d p
   ∧ headshot_kills_total (stats_of d (kills_table d) p)
     = headshots_matching matches_exact d p
   ∧ dmg (stats_of d (kills_table d) p) = damage_matching matches_exact d p)
    as Hexact.
  { rewrite Hk, Hd, Hh, stats_of_dmg.
    rewrite count_kills_exact, count_deaths_exact, count_headshot_kills_exact,
      damage_of_exact by assumption.
    by split_and!. }
  split; [exact Hexact|].
  intros (Hci1 & Hci2 & Hci3 & Hci4)%matching_ci_exact.
  rewrite Hci1, Hci2, Hci3, Hci4. exact Hexact.
Qed.

End ExactNames.

(** On the full sample recording every name has one spelling, and the
    figures of "nifty" are the counts taken up to letter case. *)
Lemma stats_count_exact_names_witness :
  ∃ st, parse_player_stats full_demo !! "nifty" = Some st
        ∧ consistent_case full_demo "nifty"
        ∧ kills_total st = kills_matching matches_ci full_demo "nifty"
        ∧ deaths_total st = deaths_matching matches_ci full_demo "nifty"
        ∧ headshot_kills_total st = headshots_matching matches_ci full_demo "nifty"
        ∧ dmg st = damage_matching matches_ci full_demo "nifty".
Proof.
  assert (consistent_case full_demo "nifty") as Hcase.
  { split.
    - intros r Hr. simpl in Hr.
      repeat (apply elem_of_cons in Hr as [->|Hr];
              [split; intros Hm; vm_compute in Hm; try discriminate Hm; reflexivity|]).
      destruct (not_elem_of_nil _ Hr).
    - intros df r Hdf Hr. injection Hdf as <-. simpl in Hr.
      repeat (apply elem_of_cons in Hr as [->|Hr];
              [intros Hm; vm_compute in Hm; try discriminate Hm; reflexivity|]).
      destruct (not_elem_of_nil _ Hr). }
  eexists. split; [vm_compute; reflexivity|]. split; [exact Hcase|].
  refine (proj2 (stats_count_exact_names full_demo "nifty" _ _ _ _ _ _) Hcase).
  - vm_compute; reflexivity.
  - reflexivity.
  - reflexivity.
  - reflexivity.
  - intros df Hdf. injection Hdf as <-. split; reflexivity.
Defined.

(** ** Multi-kill tiers *)

Section MultiKills.

Implicit Types (d : Demo) (p : string) (st : PlayerStats) (r : Z).











End MultiKills.


(** ** The statistical mode *)

Section Mode.

Implicit Types (col : list (option string)) (vals : list string) (m x : string).


Lemma max_list_with_attained {A} (f : A → nat) (l : list A) :
  l ≠ [] → ∃ a, a ∈ l ∧ f a = max_list_with f l.
Proof.
  induction l as [|a l IH]; [done|]. intros _. simpl.
  destruct l as [|b l].
  - exists a. split; [left|]. simpl. lia.
  - destruct IH as (c & Hc & Hmax); [done|].
    destruct (Nat.max_spec (f a) (max_list_with f (b :: l))) as [[? Heq]|[? Heq]].
    + exists c. split; [by right|]. by rewrite Heq.
    + exists a. split; [left|]. by rewrite Heq.
Qed.

Lemma elem_of_unique_from {A} `{EqDecision A} (seen l : list A) (a : A) :
  a ∈ unique_from seen l ↔ a ∈ l ∧ a ∉ seen.
Proof.
  revert seen. induction l as [|b l IH]; intros seen; simpl.
  - split; [by intros ?%elem_of_nil|by intros [?%elem_of_nil _]].
  - destruct (decide (b ∈ seen)) as [Hb|Hb].
    + rewrite IH, elem_of_cons. split; [by intros [? ?]; split; [right|]|].
      intros [[->|?] ?]; [done|by split].
    + rewrite !elem_of_cons, IH, elem_of_cons. split.
      * intros [->|[? ?]]; [by split; [left|]|]. split; [by right|tauto].
      * intros [[->|?] ?]; [by left|].
        destruct (decide (a = b)) as [->|?]; [by left|right]. split; [done|tauto].
Qed.

Lemma elem_of_unique {A} `{EqDecision A} (l : list A) (a : A) :
  a ∈ unique l ↔ a ∈ l.
Proof.
  unfold unique. rewrite elem_of_unique_from. split; [by intros [? _]|].
  intros ?. split; [done|]. by intros ?%elem_of_nil.
Qed.




(** A column with a non-null cell has a statistical mode. *)
Lemma mode_defined col :
  omap id col ≠ [] → ∃ m, head (mode col) = Some m.
Proof.
  intros Hne.
  destruct (max_list_with_attained
              (λ y, occurrences y (omap id col)) (omap id col) Hne)
    as (y & Hy & Hmax).
  assert (y ∈ mode col) as Hin.
  { unfold mode. rewrite merge_sort_Permutation, elem_of_unique.
    apply list_elem_of_filter. by split. }
  destruct (mode col) as [|h rest]; [by apply elem_of_nil in Hin|].
  by exists h.
Qed.


End Mode.

(** ** The match outcome *)

Section Outcome.

Implicit Types (d : Demo) (df : RoundFrame) (relevant : list TickRow).









End Outcome.





(** ** The upload handler *)

Section Upload.

Implicit Types (db : DB) (m : MatchUpload) (id : string).

Lemma count_map_stats_zero db id :
  (0 <? count_map_stats db id)%Z = false →
  ¬ Exists (λ r, map_match_id r = id) (map_stats_table db).
Proof.
  unfold count_map_stats, len. intros Hcount%Z.ltb_ge Hex.
  apply Exists_exists in Hex as (r & Hr & Hid).
  assert (r ∈ filter (λ r, map_match_id r = id) (map_stats_table db)) as Hin
    by (by apply list_elem_of_filter).
  destruct (filter _ (map_stats_table db)); [by apply elem_of_nil in Hin|].
  simpl in Hcount. lia.
Qed.

(** The player inserts leave the [map_stats] table alone and add one row
    each to [player_stats]. *)
Lemma foldl_insert_player_stats id db (players : list (string * PlayerStats)) :
  map_stats_table (foldl (insert_player_stats id) db players) = map_stats_table db
  ∧ count_player_stats (foldl (insert_player_stats id) db players) id
    = (count_player_stats db id + len players)%Z.
Proof.
  revert db. induction players as [|p players IH]; intros db; simpl.
  - split; [done|]. unfold len. simpl. lia.
  - destruct (IH (insert_player_stats id db p)) as [-> ->].
    split; [done|]. unfold count_player_stats, insert_player_stats, len. simpl.
    rewrite filter_app, length_app, filter_cons, decide_True by done.
    simpl. lia.
Qed.

(** What the handler does on a match that is not stored yet. *)
Lemma upload_match_data_fresh db m :
  (0 <? count_map_stats db (match_id m))%Z = false →
  ∃ db1,
    insert_map_stats (match_id m) (map_stats m) db = Some db1
    ∧ upload_match_data db m
      = (Success (len (player_stats m)),
         foldl (insert_player_stats (match_id m)) db1 (player_stats m))
    ∧ count_map_stats db1 (match_id m) = 1%Z
    ∧ count_player_stats db1 (match_id m) = count_player_stats db (match_id m).
Proof.
  intros Hcount. pose proof (count_map_stats_zero db _ Hcount) as Hnone.
  unfold upload_match_data, insert_map_stats. rewrite Hcount.
  rewrite bool_decide_eq_false_2 by done.
  eexists. split; [reflexivity|]. split; [reflexivity|]. split; [|done].
  unfold count_map_stats, len. simpl.
  rewrite filter_app, length_app, filter_cons, decide_True by done.
  apply Z.ltb_ge in Hcount. unfold count_map_stats, len in Hcount.
  simpl. lia.
Qed.

Lemma upload_match_data_conflict db m :
  (0 < count_map_stats db (match_id m))%Z →
  upload_match_data db m
  = (HTTPException 409 ("Match " ++ match_id m ++ " already exists in database"),
     db).
Proof.
  intros Hcount%Z.ltb_lt. unfold upload_match_data. by rewrite Hcount.
Qed.

(** A delivery leaves exactly one [map_stats] row for the match. *)
Lemma upload_match_data_success db m n db' :
  upload_match_data db m = (Success n, db') →
  count_map_stats db' (match_id m) = 1%Z
  ∧ count_player_stats db' (match_id m)
    = (count_player_stats db (match_id m) + len (player_stats m))%Z.
Proof.
  destruct (0 <? count_map_stats db (match_id m))%Z eqn:Hcount.
  - apply Z.ltb_lt in Hcount.
    rewrite (upload_match_data_conflict db m Hcount). intros [=].
  - destruct (upload_match_data_fresh db m Hcount)
      as (db1 & _ & -> & Hmap & Hplayers).
    intros [= <- <-].
    destruct (foldl_insert_player_stats (match_id m) db1 (player_stats m))
      as [Htable Hrows].
    split.
    + unfold count_map_stats in *. by rewrite Htable.
    + by rewrite Hrows, Hplayers.
Qed.

(** The handler answers with success or with the 409 exception; its 500
    branch needs a concurrent writer. *)
Lemma upload_match_data_reply db m :
  (∃ n, (upload_match_data db m).1 = Success n)
  ∨ (∃ detail, (upload_match_data db m).1 = HTTPException 409 detail).
Proof.
  destruct (0 <? count_map_stats db (match_id m))%Z eqn:Hcount.
  - right. apply Z.ltb_lt in Hcount.
    rewrite (upload_match_data_conflict db m Hcount). by eexists.
  - left. destruct (upload_match_data_fresh db m Hcount) as (db1 & _ & -> & _).
    by eexists.
Qed.

(** C1.  When [map_stats] already holds a row for the match id of the
    payload, the handler raises the 409 exception and returns the database
    as it was.  After a delivery answered with 200, the same payload is
    answered with 409 and leaves the database, and so the row counts of
    the match in both tables, unchanged; the client reports the second
    submission with its "already exists" line. *)
Theorem upload_is_idempotent db m :
  ((0 < count_map_stats db (match_id m))%Z →
     upload_match_data db m
     = (HTTPException 409
          ("Match " ++ match_id m ++ " already exists in database"), db))
  ∧ (∀ n db',
       upload_match_data db m = (Success n, db') →
       upload_match_data db' m
       = (HTTPException 409
            ("Match " ++ match_id m ++ " already exists in database"), db')
       ∧ count_map_stats (upload_match_data db' m).2 (match_id m)
         = count_map_stats db' (match_id m)
       ∧ count_player_stats (upload_match_data db' m).2 (match_id m)
         = count_player_stats db' (match_id m)
       ∧ count_map_stats db' (match_id m) = 1%Z)
  ∧ (∀ id stats ms line db',
       m = build_payload id stats ms →
       upload_to_api Reaches id stats ms db = (true, line, db') →
       upload_to_api Reaches id stats ms db' = (false, AlreadyExistsViaApi id, db')).
Proof.
  split; [apply upload_match_data_conflict|].
  assert (∀ n db',
       upload_match_data db m = (Success n, db') →
       upload_match_data db' m
       = (HTTPException 409
            ("Match " ++ match_id m ++ " already exists in database"), db')
       ∧ count_map_stats db' (match_id m) = 1%Z) as Hsecond.
  { intros n db' Hfirst.
    destruct (upload_match_data_success db m n db' Hfirst) as [Hone _].
    split; [|exact Hone]. apply upload_match_data_conflict. lia. }
  split.
  - intros n db' Hfirst. destruct (Hsecond n db' Hfirst) as [-> Hone].
    by split_and!.
  - intros id stats ms line db' -> Hfirst.
    unfold upload_to_api, post in *.
    destruct (upload_match_data db (build_payload id stats ms))
      as [[n|status detail] db1] eqn:Hreply.
    + simpl in Hfirst. injection Hfirst as _ <-.
      destruct (Hsecond n db1 eq_refl) as [-> _]. reflexivity.
    + exfalso. simpl in Hfirst.
      pose proof (upload_match_data_reply db (build_payload id stats ms)) as Hst.
      rewrite Hreply in Hst. simpl in Hst.
      destruct Hst as [[n Hn] | [detail' Hd]]; [discriminate Hn|].
      injection Hd as -> _. simpl in Hfirst. discriminate Hfirst.
Qed.

End Upload.

(** The sample payload is delivered to an empty sink; the second
    submission is answered with 409 and the sink keeps its one [map_stats]
    row and five [player_stats] rows. *)
Lemma upload_is_idempotent_witness :
  (0 < count_map_stats stored_once (match_id sample_payload))%Z
  ∧ reply_status (upload_match_data stored_once sample_payload).1 = 409%Z
  ∧ (upload_match_data stored_once sample_payload).2 = stored_once
  ∧ count_map_stats stored_once (match_id sample_payload) = 1%Z
  ∧ count_player_stats stored_once (match_id sample_payload) = 5%Z.
Proof.
  assert (0 < count_map_stats stored_once (match_id sample_payload))%Z as Hstored
    by (vm_compute; reflexivity).
  split; [exact Hstored|].
  rewrite (proj1 (upload_is_idempotent stored_once sample_payload) Hstored).
  split; [reflexivity|]. split; [reflexivity|].
  split; vm_compute; reflexivity.
Defined.

(** ** What the caller learns from an upload *)

(** C9.  The loops of [main] and [run_parse_mode] keep three counters and
    test [if result], [elif result is False], [else], but every failure
    returns [False] like the duplicate does.  On the sample recording: the
    flag of a duplicate answered with 409 is the flag of a request answered
    with 500 and of a request that never arrives; a run against a sink that
    answers 500, a run whose request never arrives, a run on a recording
    whose map statistics cannot be parsed, and a second run against a sink
    that holds the match all return [False], and the loop counts each of
    them as skipped, none as failed. *)
Lemma conflict_reported_like_failure :
  (check_response "202405012030" (Response 409 "exists")).1 = false
  ∧ (check_response "202405012030" (Response 500 "error")).1 = false
  ∧ (check_response "202405012030" RequestException).1 = false
  ∧ (parse_demo_file full_demo api_options
       (parse_demo_file full_demo api_options fresh_world).2).1 = false
  ∧ (parse_demo_file full_demo failing_options fresh_world).1 = false
  ∧ (parse_demo_file full_demo unreachable_options fresh_world).1 = false
  ∧ (parse_demo_file no_header_demo api_options fresh_world).1 = false
  ∧ head (printed (parse_demo_file no_header_demo api_options fresh_world).2)
    = Some FailedMapStats
  ∧ (process_demos [full_demo; full_demo] api_options fresh_world
       {| successful := 0; skipped := 0; failed := 0 |}).1
    = {| successful := 1; skipped := 1; failed := 0 |}
  ∧ (process_demos [full_demo] failing_options fresh_world
       {| successful := 0; skipped := 0; failed := 0 |}).1
    = {| successful := 0; skipped := 1; failed := 0 |}
  ∧ (process_demos [full_demo] unreachable_options fresh_world
       {| successful := 0; skipped := 0; failed := 0 |}).1
    = {| successful := 0; skipped := 1; failed := 0 |}
  ∧ (process_demos [no_header_demo] api_options fresh_world
       {| successful := 0; skipped := 0; failed := 0 |}).1
    = {| successful := 0; skipped := 1; failed := 0 |}.
Proof. repeat split; vm_compute; reflexivity. Qed.

Section UploadResult.

(** The flag of [upload_to_api] is true exactly for an answer with status
    200, and the line for a duplicate is printed exactly for status 409:
    the flag alone does not tell a duplicate from a failure. *)
Lemma check_response_flag id o :
  ((check_response id o).1 = true ↔ ∃ text, o = Response 200 text)
  ∧ ((check_response id o).2 = AlreadyExistsViaApi id
     ↔ ∃ text, o = Response 409 text).
Proof.
  split.
  - destruct o as [status text| |]; simpl.
    + destruct (status =? 200)%Z eqn:H200.
      * apply Z.eqb_eq in H200 as ->. split; [by eexists|done].
      * apply Z.eqb_neq in H200.
        split; [by destruct (status =? 409)%Z|]. by intros (? & [= ? _]).
    + split; [done|]. by intros (? & [=]).
    + split; [done|]. by intros (? & [=]).
  - destruct o as [status text| |]; simpl.
    + destruct (status =? 200)%Z eqn:H200.
      * apply Z.eqb_eq in H200 as ->. split; [done|]. by intros (? & [= ]).
      * destruct (status =? 409)%Z eqn:H409.
        -- apply Z.eqb_eq in H409 as ->. split; [by eexists|done].
        -- apply Z.eqb_neq in H409. split; [done|]. by intros (? & [= ? _]).
    + split; [done|]. by intros (? & [=]).
    + split; [done|]. by intros (? & [=]).
Qed.

End UploadResult.

(** The roster check on two sample recordings: the full one passes; the
    one without "martinsen" is skipped with that name reported, nothing
    parsed and the sink untouched. *)
Lemma roster_check_spec_witness :
  check_required_players full_demo = true
  ∧ check_required_players short_roster_demo = false
  ∧ missing_players short_roster_demo = {[ "martinsen" ]}
  ∧ ∃ w', parse_demo_file short_roster_demo api_options fresh_world = (false, w')
          ∧ remote_db w' = empty_db
          ∧ printed w' =
              [ SkippingDemo; FoundPlayers (get_player_names short_roster_demo);
                MissingRequiredPlayers (missing_players short_roster_demo) ].
Proof.
  assert (check_required_players short_roster_demo = false) as Hcheck
    by (vm_compute; reflexivity).
  split; [vm_compute; reflexivity|]. split; [exact Hcheck|].
  split; [vm_compute; reflexivity|].
  destruct (proj2 (proj2 (roster_check_spec short_roster_demo)) Hcheck)
    as [_ Hskip].
  destruct (Hskip api_options fresh_world)
    as (w' & Hrun & Hremote & _ & _ & Hprinted).
  exists w'. split; [exact Hrun|]. split; [exact Hremote|exact Hprinted].
Defined.

(** * Further properties of the parser *)

(** ** Round lookup: failure and monotonicity *)

Section RoundLookupMore.

Implicit Types (rows : list RoundRow) (t : Z).

(** The lookup fails exactly on a table without rows, and an answer is
    always the round number of a row of the table. *)
Theorem get_round_for_tick_fails_only_on_empty rows t :
  (get_round_for_tick rows t = None ↔ rows = [])
  ∧ (∀ r, get_round_for_tick rows t = Some r →
          ∃ row, row ∈ rows ∧ round row = r).
Proof.
  split; [|apply get_round_for_tick_elem]. split.
  - intros Hnone. destruct rows as [|row rows]; [done|].
    destruct (get_round_for_tick_total (row :: rows) t) as [r Hr]; [done|].
    rewrite Hr in Hnone. discriminate Hnone.
  - by intros ->.
Qed.

Lemma get_round_for_tick_skip row rows t :
  rows ≠ [] → (round_tick row < t)%Z →
  get_round_for_tick (row :: rows) t = get_round_for_tick rows t.
Proof.
  intros Hne Hlt. unfold get_round_for_tick. simpl.
  rewrite (proj2 (Z.leb_gt t (round_tick row)) Hlt).
  by destruct rows.
Qed.

(** On a table in the order of play a later tick is never given an earlier
    round. *)
Theorem get_round_for_tick_monotone rows t1 t2 r1 r2 :
  in_play_order rows →
  (t1 ≤ t2)%Z →
  get_round_for_tick rows t1 = Some r1 →
  get_round_for_tick rows t2 = Some r2 →
  (r1 ≤ r2)%Z.
Proof.
  intros Hsorted Hle. revert r1 r2.
  induction Hsorted as [|row rows Hrows IH Hall]; intros r1 r2 H1 H2.
  { discriminate H1. }
  destruct (decide (t1 ≤ round_tick row)%Z) as [Hin|Hout].
  - assert (r1 = round row) as ->.
    { unfold get_round_for_tick in H1. simpl in H1.
      rewrite (proj2 (Z.leb_le t1 (round_tick row)) Hin) in H1. congruence. }
    apply get_round_for_tick_elem in H2 as (row2 & Hrow2 & <-).
    apply elem_of_cons in Hrow2 as [->|Hrow2]; [lia|].
    by apply (proj1 (Forall_forall _ _) Hall).
  - destruct rows as [|row' rows'].
    + unfold get_round_for_tick in H1, H2. simpl in H1, H2.
      rewrite (proj2 (Z.leb_gt t1 (round_tick row))) in H1 by lia.
      rewrite (proj2 (Z.leb_gt t2 (round_tick row))) in H2 by lia.
      simpl in *. simplify_eq. lia.
    + rewrite get_round_for_tick_skip in H1 by (done || lia).
      rewrite get_round_for_tick_skip in H2 by (done || lia).
      by apply IH.
Qed.

End RoundLookupMore.

(** On the sample round table tick 1500 lies in round 2 and tick 2500 in
    round 3. *)
Lemma get_round_for_tick_monotone_witness :
  in_play_order three_rounds
  ∧ get_round_for_tick three_rounds 1500 = Some 2%Z
  ∧ get_round_for_tick three_rounds 2500 = Some 3%Z
  ∧ (2 ≤ 3)%Z.
Proof.
  assert (in_play_order three_rounds) as Hsorted.
  { unfold in_play_order, three_rounds.
    repeat (constructor; [|repeat constructor; simpl; lia]). constructor. }
  split; [exact Hsorted|]. split; [reflexivity|]. split; [reflexivity|].
  apply (get_round_for_tick_monotone three_rounds 1500 2500 2 3 Hsorted);
    [lia|reflexivity|reflexivity].
Defined.

(** ** Bounds between the figures of one player *)

Section StatsBounds.

Implicit Types (d : Demo) (p : string) (st : PlayerStats).

Lemma len_nonneg {A} (l : list A) : (0 ≤ len l)%Z.
Proof. unfold len. lia. Qed.

Lemma len_filter_and_le {A} (P Q : A → Prop)
    `{!∀ x, Decision (P x)} `{!∀ x, Decision (P x ∧ Q x)} (l : list A) :
  (len (filter (λ x, P x ∧ Q x) l) ≤ len (filter P l))%Z.
Proof.
  unfold len. apply inj_le.
  induction l as [|x l IH]; [done|].
  rewrite !filter_cons.
  destruct (decide (P x ∧ Q x)) as [[HP _]|Hnot].
  - rewrite decide_True by done. simpl. lia.
  - destruct (decide (P x)); simpl; lia.
Qed.

(** The size of a filtered map after the insertion of a fresh key. *)
Lemma size_filter_insert_fresh (P : Z * nat → Prop) `{!∀ kv, Decision (P kv)}
    (m : gmap Z nat) (i : Z) (x : nat) :
  m !! i = None →
  size (filter P (<[i:=x]> m))
  = if decide (P (i, x)) then S (size (filter P m)) else size (filter P m).
Proof.
  intros Hi. destruct (decide (P (i, x))) as [HP|HP].
  - rewrite map_filter_insert_True by done.
    apply map_size_insert_None, map_lookup_filter_None_2. by left.
  - rewrite map_filter_insert_False by done. by rewrite delete_id.
Qed.

Lemma group_total_insert (m : gmap Z nat) (i : Z) (x : nat) :
  m !! i = None → group_total (<[i:=x]> m) = (x + group_total m)%nat.
Proof.
  intros Hi. unfold group_total.
  rewrite map_fold_insert_L; [done| |done]. intros. lia.
Qed.

(** Groups of five or more, of four and of three account for at most the
    sum of all group sizes. *)
Lemma tier_weight_le_total (Pa Pq Pt : Z * nat → Prop)
    `{!∀ kv, Decision (Pa kv)} `{!∀ kv, Decision (Pq kv)}
    `{!∀ kv, Decision (Pt kv)} (m : gmap Z nat) :
  (∀ kv, Pa kv → (5 ≤ kv.2)%nat) →
  (∀ kv, Pq kv → kv.2 = 4%nat) →
  (∀ kv, Pt kv → kv.2 = 3%nat) →
  (5 * Z.of_nat (size (filter Pa m)) + 4 * Z.of_nat (size (filter Pq m))
   + 3 * Z.of_nat (size (filter Pt m)) ≤ Z.of_nat (group_total m))%Z.
Proof.
  intros Ha Hq Ht. induction m as [|i x m Hi IH] using map_ind.
  - rewrite !map_filter_empty, !map_size_empty. unfold group_total.
    rewrite map_fold_empty. lia.
  - rewrite group_total_insert, !size_filter_insert_fresh by done.
    destruct (decide (Pa (i, x))) as [Hai|_]; [apply Ha in Hai|];
      (destruct (decide (Pq (i, x))) as [Hqi|_]; [apply Hq in Hqi|]);
      (destruct (decide (Pt (i, x))) as [Hti|_]; [apply Ht in Hti|]);
      simpl in *; lia.
Qed.

(** The group sizes add up to the number of grouped rows. *)
Lemma group_total_kills_per_round (rounds : list Z) :
  group_total (kills_per_round rounds) = length rounds.
Proof.
  induction rounds as [|r rounds IH]; [done|].
  unfold kills_per_round in *. simpl foldr.
  set (m := foldr _ ∅ rounds) in *.
  destruct (m !! r) as [c|] eqn:Hr.
  - rewrite <- insert_delete_eq.
    rewrite group_total_insert by apply lookup_delete_eq.
    unfold group_total in IH.
    rewrite (map_fold_delete_L _ _ r c m) in IH; [|intros; lia|done].
    simpl in *. unfold group_total. lia.
  - rewrite group_total_insert by done. simpl. lia.
Qed.

Lemma multi_kills_le_player_kills d kills_df p :
  let '(ace, quad, triple) := multi_kills d kills_df p in
  (0 ≤ ace ∧ 0 ≤ quad ∧ 0 ≤ triple
   ∧ 5 * ace + 4 * quad + 3 * triple ≤ count_kills kills_df p)%Z.
Proof.
  assert (0 ≤ count_kills kills_df p)%Z as Hkills.
  { unfold count_kills. destruct (_ && _); [apply len_nonneg|done]. }
  unfold multi_kills.
  destruct (negb (is_empty (kill_rows kills_df)) && has_attacker_name kills_df)
    eqn:Hguard; simpl andb; cbv beta iota; [|lia].
  destruct (has_kill_tick kills_df); cbv beta iota; [|lia].
  destruct (round_end d) as [round_end_df| |]; cbv beta iota; [|lia..].
  destruct (_ && _ && _); cbv beta iota; [|lia].
  destruct (negb (is_empty (player_kills kills_df p))); cbv beta iota; [|lia].
  destruct (mapM _ (player_kills kills_df p)) as [rounds|] eqn:Hrounds;
    cbv beta iota zeta; [|lia].
  apply mapM_Some_1, Forall2_length in Hrounds.
  unfold count_kills. rewrite Hguard. fold (player_kills kills_df p).
  unfold len. rewrite Hrounds, <- group_total_kills_per_round.
  unfold count_ace, count_quad, count_triple.
  split; [lia|]. split; [lia|]. split; [lia|].
  apply tier_weight_le_total; by intros [r c].
Qed.

(** For every player of the statistics: no count is negative, the headshot
    kills are among the kills, and the rounds counted as ace, quad and
    triple account for at most the player's kills. *)
Theorem stats_counts_consistent d p st :
  parse_player_stats d !! p = Some st →
  (0 ≤ kills_total st)%Z
  ∧ (0 ≤ deaths_total st)%Z
  ∧ (0 ≤ headshot_kills_total st ≤ kills_total st)%Z
  ∧ (0 ≤ ace_rounds_total st)%Z
  ∧ (0 ≤ quad_rounds_total st)%Z
  ∧ (0 ≤ triple_rounds_total st)%Z
  ∧ (5 * ace_rounds_total st + 4 * quad_rounds_total st
     + 3 * triple_rounds_total st ≤ kills_total st)%Z.
Proof.
  intros (_ & _ & ->)%parse_player_stats_lookup.
  destruct (stats_of_kills d (kills_table d) p) as (-> & -> & ->).
  pose proof (multi_kills_le_player_kills d (kills_table d) p) as Hmk.
  pose proof (stats_of_multi_kills d (kills_table d) p) as Heq.
  destruct (multi_kills d (kills_table d) p) as [[ace quad] triple].
  injection Heq as -> -> ->.
  assert (0 ≤ count_kills (kills_table d) p)%Z.
  { unfold count_kills. destruct (_ && _); [apply len_nonneg|done]. }
  assert (0 ≤ count_deaths (kills_table d) p)%Z.
  { unfold count_deaths. destruct (_ && _); [apply len_nonneg|done]. }
  assert (0 ≤ count_headshot_kills (kills_table d) p
          ≤ count_kills (kills_table d) p)%Z.
  { unfold count_headshot_kills, count_kills.
    destruct (negb (is_empty (kill_rows (kills_table d)))
              && has_attacker_name (kills_table d)); simpl andb; [|lia].
    destruct (has_headshot (kills_table d)); [|split; [lia|apply len_nonneg]].
    split; [apply len_nonneg|].
    apply (len_filter_and_le (λ r, attacker_name r = Some p)
                             (λ r, headshot r = true)). }
  lia.
Qed.

(** Damage dealt with a weapon outside the utility list is the part of
    [dmg] that [utility_dmg] leaves out. *)
Theorem dmg_splits_by_weapon d df p st :
  parse_player_stats d !! p = Some st →
  player_hurt d = Frame df →
  has_hurt_attacker_name df = true →
  has_weapon df = true →
  has_dmg_health df = true →
  dmg st
  = (utility_dmg st
     + zsum (dmg_health <$>
               filter (λ r, weapon r ∉ utility_weapons)
                      (filter (λ r, hurt_attacker_name r = Some p)
                              (hurt_rows df))))%Z.
Proof.
  intros (_ & _ & ->)%parse_player_stats_lookup Hdf Hatt Hweapon Hdmg.
  rewrite stats_of_dmg, stats_of_utility_dmg.
  unfold damage_of, damage_table. rewrite Hdf, Hatt, Hweapon, Hdmg.
  destruct (hurt_rows df) as [|r0 rows] eqn:Hrows; [done|].
  simpl negb. simpl andb. cbv iota. simpl fst. simpl snd.
  generalize (filter (λ r, hurt_attacker_name r = Some p) (r0 :: rows)).
  intros l. induction l as [|r l IH]; [done|].
  rewrite !filter_cons.
  destruct (decide (weapon r ∈ utility_weapons)) as [Hin|Hout].
  - rewrite decide_False by tauto. rewrite !fmap_cons. simpl zsum in *. lia.
  - rewrite decide_True by done. rewrite !fmap_cons. simpl zsum in *. lia.
Qed.

End StatsBounds.

(** The figures of "nifty" on the full sample recording: 3 kills, 2 of
    them headshots, all in one round counted as a triple. *)
Lemma stats_counts_consistent_witness :
  ∃ st, parse_player_stats full_demo !! "nifty" = Some st
        ∧ (0 ≤ headshot_kills_total st ≤ kills_total st)%Z
        ∧ (5 * ace_rounds_total st + 4 * quad_rounds_total st
           + 3 * triple_rounds_total st ≤ kills_total st)%Z.
Proof.
  eexists. split; [vm_compute; reflexivity|].
  destruct (stats_counts_consistent full_demo "nifty" _ eq_refl)
    as (_ & _ & Hhs & _ & _ & _ & Hmulti).
  split; [exact Hhs|exact Hmulti].
Defined.

(** "nifty" dealt 90 damage: 50 with a grenade and 40 with a rifle. *)
Lemma dmg_splits_by_weapon_witness :
  ∃ st, parse_player_stats full_demo !! "nifty" = Some st
        ∧ dmg st = (utility_dmg st + 40)%Z.
Proof.
  eexists. split; [vm_compute; reflexivity|].
  apply (dmg_splits_by_weapon full_demo sample_damage "nifty");
    [vm_compute; reflexivity|reflexivity..].
Defined.

(** ** What the roster gate guarantees *)

Section RosterCoverage.

Implicit Types (d : Demo) (p r : string).

Lemma size_list_to_set_le (l : list string) :
  (size (list_to_set l : gset string) ≤ length l)%nat.
Proof.
  induction l as [|x l IH]; [by rewrite list_to_set_nil, size_empty|].
  rewrite list_to_set_cons, size_union_alt, size_singleton. simpl.
  pose proof (subseteq_size (list_to_set l ∖ {[x]}) (list_to_set l : gset string))
    as Hsub.
  assert (list_to_set l ∖ {[x]} ⊆ (list_to_set l : gset string)) as Hdiff.
  { intros y Hy. by apply elem_of_difference in Hy as [? _]. }
  specialize (Hsub Hdiff). lia.
Qed.

Lemma size_lower_set_le (names : gset string) :
  (size (lower_set names) ≤ size names)%nat.
Proof.
  unfold lower_set, set_map.
  etrans; [apply size_list_to_set_le|]. by rewrite length_fmap.
Qed.

(** A recording that passes the roster check yields an entry for every
    name of the roster under its observed spelling, entries for tracked
    names only, and so at least five entries. *)
Theorem roster_gate_covers_roster d :
  check_required_players d = true →
  (∀ r, r ∈ REQUIRED_PLAYERS →
        ∃ p st, lower p = lower r ∧ parse_player_stats d !! p = Some st)
  ∧ (∀ p st, parse_player_stats d !! p = Some st →
             ∃ r, r ∈ REQUIRED_PLAYERS ∧ lower p = lower r)
  ∧ (5 ≤ size (parse_player_stats d))%nat.
Proof.
  intros Hcheck.
  assert (∀ r, r ∈ REQUIRED_PLAYERS →
        ∃ p st, lower p = lower r ∧ parse_player_stats d !! p = Some st)
    as Hcover.
  { intros r Hr.
    destruct (proj1 (check_required_players_true d) Hcheck r Hr) as (p & Hp & Heq).
    exists p, (stats_of d (kills_table d) p). split; [exact Heq|].
    apply parse_player_stats_lookup. split; [exact Hp|].
    split; [exact (tracked_of_required p r Hr Heq)|reflexivity]. }
  split; [exact Hcover|]. split.
  - intros p st (_ & Htracked & _)%parse_player_stats_lookup.
    unfold tracked in Htracked.
    apply elem_of_lower_set in Htracked as (r & Hr & Heq). eauto.
  - assert (lower_set REQUIRED_PLAYERS
            ⊆ lower_set (dom (parse_player_stats d))) as Hsub.
    { intros x (r & Hr & ->)%elem_of_lower_set.
      destruct (Hcover r Hr) as (p & st & Heq & Hst).
      apply elem_of_lower_set. exists p. split; [|by rewrite Heq].
      apply elem_of_dom. by exists st. }
    apply subseteq_size in Hsub.
    pose proof (size_lower_set_le (dom (parse_player_stats d))) as Hle.
    rewrite size_dom in Hle.
    assert (size (lower_set REQUIRED_PLAYERS) = 5%nat) as Hfive
      by (vm_compute; reflexivity).
    lia.
Qed.

(** Without a usable kill table no name is observed: the roster check
    fails, the statistics are empty, and [parse_demo_file] returns [False]
    with both stores as they were. *)
Theorem absent_kill_table_is_skipped d :
  (player_death d = NotFrame ∨ player_death d = Raises
   ∨ ∃ df, player_death d = Frame df
           ∧ (kill_rows df = []
              ∨ (has_attacker_name df = false ∧ has_user_name df = false))) →
  get_player_names d = ∅
  ∧ check_required_players d = false
  ∧ parse_player_stats d = ∅
  ∧ ∀ o w, (parse_demo_file d o w).1 = false
           ∧ remote_db (parse_demo_file d o w).2 = remote_db w
           ∧ local_db (parse_demo_file d o w).2 = local_db w.
Proof.
  intros Habsent.
  assert (get_player_names d = ∅) as Hnames.
  { unfold get_player_names.
    destruct Habsent as [-> | [-> | (df & -> & [Hrows | [Hatt Huser]])]];
      [done|done| |].
    - rewrite Hrows. unfold cells. simpl.
      destruct (has_attacker_name df), (has_user_name df);
        apply set_eq; intros x; rewrite elem_of_difference, elem_of_union;
        split; try (by intros ?%not_elem_of_empty);
        intros [[?%not_elem_of_empty|?%not_elem_of_empty] _]; done.
    - rewrite Hatt, Huser. apply set_eq. intros x.
      rewrite elem_of_difference, elem_of_union.
      split; [|by intros ?%not_elem_of_empty].
      intros [[?%not_elem_of_empty|?%not_elem_of_empty] _]; done. }
  assert (check_required_players d = false) as Hcheck.
  { destruct (check_required_players d) eqn:Hc; [|done].
    apply check_required_players_inhabited in Hc as (p & Hp & _).
    rewrite Hnames in Hp. destruct (not_elem_of_empty (C:=gset string) p Hp). }
  split; [exact Hnames|]. split; [exact Hcheck|]. split.
  - apply map_empty. intros p.
    destruct (parse_player_stats d !! p) as [st|] eqn:Hst; [|done].
    apply parse_player_stats_lookup in Hst as (Hp & _).
    rewrite Hnames in Hp. destruct (not_elem_of_empty (C:=gset string) p Hp).
  - intros o w. rewrite (parse_demo_file_skip d o w Hcheck). by split_and!.
Qed.

End RosterCoverage.

(** The full sample recording passes the roster check and yields five
    entries, one of them for "Dybbis". *)
Lemma roster_gate_covers_roster_witness :
  check_required_players full_demo = true
  ∧ (∃ p st, lower p = lower "Dybbis"
             ∧ parse_player_stats full_demo !! p = Some st)
  ∧ (5 ≤ size (parse_player_stats full_demo))%nat.
Proof.
  assert (check_required_players full_demo = true) as Hcheck
    by (vm_compute; reflexivity).
  destruct (roster_gate_covers_roster full_demo Hcheck) as (Hcover & _ & Hsize).
  split; [exact Hcheck|]. split; [|exact Hsize].
  apply Hcover. unfold REQUIRED_PLAYERS.
  rewrite !elem_of_union, !elem_of_singleton. tauto.
Defined.

(** The recording without a kill table is skipped. *)
Lemma absent_kill_table_is_skipped_witness :
  player_death no_kills_demo = NotFrame
  ∧ check_required_players no_kills_demo = false
  ∧ (parse_demo_file no_kills_demo api_options fresh_world).1 = false.
Proof.
  destruct (absent_kill_table_is_skipped no_kills_demo (or_introl eq_refl))
    as (_ & Hcheck & _ & Hrun).
  split; [reflexivity|]. split; [exact Hcheck|].
  exact (proj1 (Hrun api_options fresh_world)).
Defined.

(** * Further properties of the store and of the upload paths *)

Section StoreMore.

Implicit Types (db : DB) (m : MatchUpload) (id : string).

Lemma count_map_stats_pos db id :
  (0 < count_map_stats db id)%Z ↔
    Exists (λ r, map_match_id r = id) (map_stats_table db).
Proof.
  split.
  - intros Hpos. destruct (decide (Exists (λ r, map_match_id r = id)
                                          (map_stats_table db))) as [|Hno]; [done|].
    exfalso. apply Forall_Exists_neg in Hno.
    assert (filter (λ r, map_match_id r = id) (map_stats_table db) = []) as Hnil.
    { induction Hno as [|r l Hr Hl IH]; [done|].
      rewrite filter_cons, decide_False by done. exact IH. }
    unfold count_map_stats, len in Hpos. rewrite Hnil in Hpos. simpl in Hpos. lia.
  - intros Hex. destruct (0 <? count_map_stats db id)%Z eqn:Hcount.
    + by apply Z.ltb_lt.
    + by destruct (count_map_stats_zero db id Hcount).
Qed.

Lemma insert_map_stats_Some id ms db db1 :
  insert_map_stats id ms db = Some db1 ↔
    count_map_stats db id = 0%Z
    ∧ db1 = {| map_stats_table :=
                 map_stats_table db ++ [ {| map_match_id := id; map_row := ms |} ];
               player_stats_table := player_stats_table db |}.
Proof.
  unfold insert_map_stats.
  pose proof (count_map_stats_pos db id) as Hpos.
  assert (0 ≤ count_map_stats db id)%Z by (unfold count_map_stats, len; lia).
  destruct (decide (Exists (λ r, map_match_id r = id) (map_stats_table db)))
    as [Hex|Hno].
  - rewrite bool_decide_eq_true_2 by done. apply Hpos in Hex.
    split; [done|]. intros [? _]. lia.
  - rewrite bool_decide_eq_false_2 by done. split.
    + intros [= <-]. split; [|done].
      destruct (decide (0 < count_map_stats db id)%Z) as [Hlt|]; [|lia].
      by apply Hpos in Hlt.
    + by intros [_ ->].
Qed.

Lemma insert_map_stats_None id ms db :
  insert_map_stats id ms db = None ↔ (0 < count_map_stats db id)%Z.
Proof.
  unfold insert_map_stats. rewrite count_map_stats_pos.
  destruct (decide (Exists (λ r, map_match_id r = id) (map_stats_table db))).
  - by rewrite bool_decide_eq_true_2.
  - by rewrite bool_decide_eq_false_2.
Qed.

(** The rows added by the loop over the players of a payload. *)
Lemma foldl_insert_player_rows id db (players : list (string * PlayerStats)) :
  foldl (insert_player_stats id) db players
  = {| map_stats_table := map_stats_table db;
       player_stats_table :=
         player_stats_table db ++ (player_row_of id <$> players) |}.
Proof.
  revert db. induction players as [|p players IH]; intros db; simpl.
  - rewrite app_nil_r. by destruct db.
  - rewrite IH. unfold insert_player_stats, player_row_of. simpl.
    by rewrite <- app_assoc.
Qed.

Lemma upload_match_data_cases db m :
  (count_map_stats db (match_id m) = 0%Z
   ∧ upload_match_data db m
     = (Success (len (player_stats m)),
        with_match db (match_id m) (map_stats m) (player_stats m)))
  ∨ ((0 < count_map_stats db (match_id m))%Z
     ∧ upload_match_data db m
       = (HTTPException 409
            ("Match " ++ match_id m ++ " already exists in database"), db)).
Proof.
  destruct (0 <? count_map_stats db (match_id m))%Z eqn:Hcount.
  - right. apply Z.ltb_lt in Hcount. split; [done|].
    by apply upload_match_data_conflict.
  - left. destruct (upload_match_data_fresh db m Hcount)
      as (db1 & Hins & -> & _).
    apply insert_map_stats_Some in Hins as [Hzero ->].
    split; [done|]. by rewrite foldl_insert_player_rows.
Qed.

Lemma upload_to_database_cases id stats ms db :
  (count_map_stats db id = 0%Z
   ∧ upload_to_database id stats ms db
     = (true, UploadedToDatabase id, with_match db id ms (map_to_list stats)))
  ∨ ((0 < count_map_stats db id)%Z
     ∧ upload_to_database id stats ms db = (false, ErrorUploadingToDatabase, db)).
Proof.
  unfold upload_to_database.
  destruct (insert_map_stats id ms db) as [db1|] eqn:Hins.
  - left. apply insert_map_stats_Some in Hins as [Hzero ->].
    split; [done|]. by rewrite foldl_insert_player_rows.
  - right. by apply insert_map_stats_None in Hins.
Qed.

(** What an answer of the handler says about the store: success is
    answered only for a match id without a [map_stats] row, and counts the
    players of the payload; 409 is answered only for a match id with such
    a row; and every answer other than success leaves the database as it
    was.  Nothing is said about when the handler answers 500. *)
Theorem upload_reply_reflects_store db m :
  (∀ n, (upload_match_data db m).1 = Success n →
        count_map_stats db (match_id m) = 0%Z ∧ n = len (player_stats m))
  ∧ (reply_status (upload_match_data db m).1 = 409%Z →
     (0 < count_map_stats db (match_id m))%Z)
  ∧ (reply_status (upload_match_data db m).1 ≠ 200%Z →
     (upload_match_data db m).2 = db).
Proof.
  destruct (upload_match_data_cases db m) as [[Hzero ->]|[Hpos ->]]; simpl.
  - split; [intros n [= <-]; by split|]. split; [intros [=]|]. by intros [].
  - split; [intros n [=]|]. split; [intros _; exact Hpos|reflexivity].
Qed.

(** The local database path and the handler leave the same database behind
    and agree on success. *)
Theorem database_upload_agrees_with_handler id stats ms db :
  (upload_to_database id stats ms db).2
  = (upload_match_data db (build_payload id stats ms)).2
  ∧ ((upload_to_database id stats ms db).1.1 = true
     ↔ reply_status (upload_match_data db (build_payload id stats ms)).1 = 200%Z).
Proof.
  destruct (upload_match_data_cases db (build_payload id stats ms))
    as [[Hzero ->]|[Hpos ->]];
    destruct (upload_to_database_cases id stats ms db) as [[Hzero' ->]|[Hpos' ->]];
    simpl in *; try lia; by split.
Qed.

Lemma map_rows_of_with_match db id ms players id' :
  map_rows_of (with_match db id ms players) id'
  = (map_rows_of db id'
     ++ if decide (id = id') then [ {| map_match_id := id; map_row := ms |} ]
        else [])%list.
Proof.
  unfold map_rows_of, with_match. simpl.
  rewrite filter_app, filter_cons. simpl. by destruct (decide (id = id')).
Qed.

Lemma player_rows_of_with_match db id ms players id' :
  player_rows_of (with_match db id ms players) id'
  = (player_rows_of db id'
     ++ if decide (id = id') then player_row_of id <$> players else [])%list.
Proof.
  unfold player_rows_of, with_match. simpl. rewrite filter_app. f_equal.
  destruct (decide (id = id')) as [<-|Hne].
  - induction players as [|p players IH]; [done|].
    rewrite fmap_cons, filter_cons. simpl. rewrite decide_True by done.
    by f_equal.
  - induction players as [|p players IH]; [done|].
    rewrite fmap_cons, filter_cons. simpl. by rewrite decide_False.
Qed.

Lemma map_rows_of_nil db id : count_map_stats db id = 0%Z → map_rows_of db id = [].
Proof.
  unfold count_map_stats, map_rows_of, len. intros Hzero.
  apply length_zero_iff_nil. lia.
Qed.

(** What a successful upload stores can be read back: the one [map_stats]
    row of the match carries the payload's map outcome, and the
    [player_stats] rows of the match end with the payload's players, in
    the payload's order. *)
Theorem upload_stores_payload db m n db' :
  upload_match_data db m = (Success n, db') →
  n = len (player_stats m)
  ∧ map_rows_of db' (match_id m)
    = [ {| map_match_id := match_id m; map_row := map_stats m |} ]
  ∧ player_rows_of db' (match_id m)
    = (player_rows_of db (match_id m)
       ++ (player_row_of (match_id m) <$> player_stats m))%list.
Proof.
  destruct (upload_match_data_cases db m) as [[Hzero ->]|[Hpos ->]];
    [|intros [=]].
  intros [= <- <-]. split; [done|].
  rewrite map_rows_of_with_match, player_rows_of_with_match.
  rewrite !decide_True by done. by rewrite (map_rows_of_nil db _ Hzero).
Qed.

(** An upload never removes or rewrites a stored row, and it leaves the
    rows of every other match as they were. *)
Theorem upload_keeps_stored_rows db m id' :
  id' ≠ match_id m →
  map_stats_table db `prefix_of` map_stats_table (upload_match_data db m).2
  ∧ player_stats_table db `prefix_of` player_stats_table (upload_match_data db m).2
  ∧ map_rows_of (upload_match_data db m).2 id' = map_rows_of db id'
  ∧ player_rows_of (upload_match_data db m).2 id' = player_rows_of db id'.
Proof.
  intros Hne.
  destruct (upload_match_data_cases db m) as [[Hzero ->]|[Hpos ->]]; simpl.
  - split; [by apply prefix_app_r|]. split; [by apply prefix_app_r|].
    fold (with_match db (match_id m) (map_stats m) (player_stats m)).
    rewrite map_rows_of_with_match, player_rows_of_with_match.
    rewrite !decide_False by done. by rewrite !app_nil_r.
  - done.
Qed.

Lemma with_match_consistent db id ms players :
  count_map_stats db id = 0%Z →
  consistent_store db → consistent_store (with_match db id ms players).
Proof.
  intros Hzero [Huniq Hplayers]. split.
  - unfold unique_match_ids, with_match in *. simpl.
    rewrite fmap_app. apply NoDup_app. split; [done|]. split.
    + intros x Hx [->|[]%elem_of_nil]%elem_of_cons.
      apply list_elem_of_fmap in Hx as (r & Hr & Hin).
      simpl in Hr. subst id.
      assert (0 < count_map_stats db (map_match_id r))%Z; [|lia].
      apply count_map_stats_pos, Exists_exists. eauto.
    + apply NoDup_singleton.
  - intros r [Hr|Hr]%elem_of_app; simpl.
    + destruct (Hplayers r Hr) as (mr & Hmr & Heq).
      exists mr. split; [|done]. apply elem_of_app. by left.
    + apply list_elem_of_fmap in Hr as (p & -> & _).
      eexists. split; [apply elem_of_app; right; left|done].
Qed.

(** Both upload paths keep the store consistent: at most one [map_stats]
    row per match id, and no [player_stats] row without its match. *)
Theorem uploads_keep_store_consistent db :
  consistent_store db →
  (∀ m, consistent_store (upload_match_data db m).2)
  ∧ (∀ id stats ms, consistent_store (upload_to_database id stats ms db).2).
Proof.
  intros Hdb. split.
  - intros m.
    destruct (upload_match_data_cases db m) as [[Hzero ->]|[Hpos ->]]; simpl;
      [by apply with_match_consistent|done].
  - intros id stats ms.
    destruct (upload_to_database_cases id stats ms db) as [[Hzero ->]|[Hpos ->]];
      simpl; [by apply with_match_consistent|done].
Qed.

End StoreMore.

(** The sample payload delivered to an empty sink: one [map_stats] row and
    the five players of the payload can be read back. *)
Lemma upload_stores_payload_witness :
  upload_match_data empty_db sample_payload = (Success 5, stored_once)
  ∧ map_rows_of stored_once (match_id sample_payload)
    = [ {| map_match_id := match_id sample_payload;
           map_row := map_stats sample_payload |} ]
  ∧ player_rows_of stored_once (match_id sample_payload)
    = player_row_of (match_id sample_payload) <$> player_stats sample_payload.
Proof.
  assert (upload_match_data empty_db sample_payload = (Success 5, stored_once))
    as Hup by (vm_compute; reflexivity).
  destruct (upload_stores_payload empty_db sample_payload 5 stored_once Hup)
    as (_ & Hmap & Hplayers).
  split; [exact Hup|]. split; [exact Hmap|exact Hplayers].
Defined.

(** Delivering the sample payload to a sink that holds another match
    leaves that match's rows alone. *)
Lemma upload_keeps_stored_rows_witness :
  "other" ≠ match_id sample_payload
  ∧ map_rows_of (upload_match_data stored_once sample_payload).2 "other"
    = map_rows_of stored_once "other".
Proof.
  assert ("other" ≠ match_id sample_payload) as Hne by discriminate.
  split; [exact Hne|].
  exact (proj1 (proj2 (proj2
    (upload_keeps_stored_rows stored_once sample_payload "other" Hne)))).
Defined.

(** The empty store is consistent, and stays so after the sample payload
    is delivered through the handler. *)
Lemma uploads_keep_store_consistent_witness :
  consistent_store empty_db
  ∧ consistent_store (upload_match_data empty_db sample_payload).2.
Proof.
  assert (consistent_store empty_db) as Hempty.
  { split; [apply NoDup_nil_2|]. by intros r Hr%elem_of_nil. }
  split; [exact Hempty|].
  exact (proj1 (uploads_keep_store_consistent empty_db Hempty) sample_payload).
Defined.

(** * Further properties of [parse_demo_file] and of the loop of [main] *)

Section PipelineMore.

Implicit Types (d : Demo) (o : Options) (w : World) (id : string).

Lemma same_stores_say msgs w w0 : same_stores w0 w → same_stores (say msgs w0) w.
Proof. by intros (? & ? & ?). Qed.

Lemma upload_to_api_cases route id stats ms db :
  match route with
  | Reaches =>
      (count_map_stats db id = 0%Z
       ∧ upload_to_api route id stats ms db
         = (true, UploadedViaApi id, with_match db id ms (map_to_list stats)))
      ∨ ((0 < count_map_stats db id)%Z
         ∧ upload_to_api route id stats ms db = (false, AlreadyExistsViaApi id, db))
  | ReplyLost seen =>
      (count_map_stats db id = 0%Z
       ∧ upload_to_api route id stats ms db
         = (check_response id seen, with_match db id ms (map_to_list stats)))
      ∨ ((0 < count_map_stats db id)%Z
         ∧ upload_to_api route id stats ms db = (check_response id seen, db))
  | _ => (upload_to_api route id stats ms db).2 = db
  end.
Proof.
  destruct route as [|status text| |seen]; [|done|done|].
  - unfold upload_to_api, post.
    destruct (upload_match_data_cases db (build_payload id stats ms))
      as [[Hzero ->]|[Hpos ->]]; [left|right]; by split.
  - unfold upload_to_api, post.
    destruct (upload_match_data_cases db (build_payload id stats ms))
      as [[Hzero ->]|[Hpos ->]]; [left|right]; by split.
Qed.

(** What [upload_to_api] does to the sink, by the way of the request. *)
Lemma upload_to_api_effect route id stats ms db success line db' :
  upload_to_api route id stats ms db = (success, line, db') →
  (db' = db
   ∨ (count_map_stats db id = 0%Z
      ∧ db' = with_match db id ms (map_to_list stats)))
  ∧ ((∀ seen, route ≠ ReplyLost seen) → success = false → db' = db)
  ∧ (route = Reaches → success = true →
     count_map_stats db id = 0%Z
     ∧ db' = with_match db id ms (map_to_list stats))
  ∧ (route = Reaches → (0 < count_map_stats db id)%Z → success = false).
Proof.
  intros Hres.
  pose proof (upload_to_api_cases route id stats ms db) as Hup.
  rewrite Hres in Hup.
  destruct route as [|status text| |seen]; simpl in Hup.
  - destruct Hup as [[Hzero [= -> _ ->]]|[Hpos [= -> _ ->]]].
    + split; [right; by split|]. split; [intros _ Hfalse; discriminate Hfalse|].
      split; [intros _ _; by split|]. intros _ Hlt. lia.
    + split; [by left|]. split; [done|].
      split; [intros _ Htrue; discriminate Htrue|]. done.
  - subst db'. split; [by left|]. split; [done|].
    split; intros Hroute; discriminate Hroute.
  - subst db'. split; [by left|]. split; [done|].
    split; intros Hroute; discriminate Hroute.
  - assert (db' = db
            ∨ count_map_stats db id = 0%Z
              ∧ db' = with_match db id ms (map_to_list stats)) as Hdb.
    { destruct Hup as [[Hzero [= _ ->]]|[Hpos [= _ ->]]];
        [right; by split|by left]. }
    split; [exact Hdb|].
    split; [intros Hseen; by destruct (Hseen seen)|].
    split; intros Hroute; discriminate Hroute.
Qed.

(** The same for the local database. *)
Lemma upload_to_database_effect id stats ms db success line db' :
  upload_to_database id stats ms db = (success, line, db') →
  (db' = db
   ∨ (count_map_stats db id = 0%Z
      ∧ db' = with_match db id ms (map_to_list stats)))
  ∧ (success = false → db' = db)
  ∧ (success = true →
     count_map_stats db id = 0%Z
     ∧ db' = with_match db id ms (map_to_list stats))
  ∧ ((0 < count_map_stats db id)%Z → success = false).
Proof.
  intros Hres.
  destruct (upload_to_database_cases id stats ms db) as [[Hzero Heq]|[Hpos Heq]];
    rewrite Heq in Hres; injection Hres as <- _ <-.
  - split; [right; by split|]. split; [intros Hfalse; discriminate Hfalse|].
    split; [intros _; by split|]. intros Hlt. lia.
  - split; [by left|]. split; [done|].
    split; [intros Htrue; discriminate Htrue|]. done.
Qed.

(** What the upload step does to the world. *)
Lemma upload_step_effect d o id stats ms w :
  (use_api o = true →
     local_db (upload_step d o id stats ms w).2 = local_db w)
  ∧ (use_api o = false →
     remote_db (upload_step d o id stats ms w).2 = remote_db w)
  ∧ (sink o (upload_step d o id stats ms w).2 = sink o w
     ∨ (count_map_stats (sink o w) id = 0%Z
        ∧ sink o (upload_step d o id stats ms w).2
          = with_match (sink o w) id ms (map_to_list stats)))
  ∧ (answer_seen o → (upload_step d o id stats ms w).1 = false →
     sink o (upload_step d o id stats ms w).2 = sink o w)
  ∧ (direct_path o → (upload_step d o id stats ms w).1 = true →
     count_map_stats (sink o w) id = 0%Z
     ∧ sink o (upload_step d o id stats ms w).2
       = with_match (sink o w) id ms (map_to_list stats))
  ∧ (direct_path o → (0 < count_map_stats (sink o w) id)%Z →
     (upload_step d o id stats ms w).1 = false)
  ∧ cleanups (upload_step d o id stats ms w).2
    = if (upload_step d o id stats ms w).1 && cleanup o
      then stem d :: cleanups w else cleanups w.
Proof.
  unfold upload_step, sink, direct_path, answer_seen.
  destruct (use_api o) eqn:Hmode.
  - destruct (truthy (api_url o)) eqn:Hurl.
    + destruct (upload_to_api (route o) id stats ms (remote_db w))
        as [[success line] db'] eqn:Hres.
      destruct (upload_to_api_effect _ _ _ _ _ _ _ _ Hres)
        as (Hdb & Hkeep & Htrue & Hfalse).
      destruct success, (cleanup o); simpl;
        (split; [done|]); (split; [done|]);
        (split; [exact Hdb|]);
        (split; [intros [[=]|Hseen]; by apply Hkeep|]);
        (split; [intros [[=]|Hroute]; by apply Htrue|]);
        (split; [intros [[=]|Hroute]; by apply Hfalse|]);
        reflexivity.
    + simpl. split; [done|]. split; [done|]. split; [by left|].
      split; [done|]. split; [done|]. split; done.
  - destruct (upload_to_database id stats ms (local_db w))
      as [[success line] db'] eqn:Hres.
    destruct (upload_to_database_effect _ _ _ _ _ _ _ Hres)
      as (Hdb & Hkeep & Htrue & Hfalse).
    destruct success, (cleanup o); simpl;
      (split; [done|]); (split; [done|]);
      (split; [exact Hdb|]);
      (split; [intros _; exact Hkeep|]);
      (split; [intros _; exact Htrue|]);
      (split; [intros _; exact Hfalse|]);
      reflexivity.
Qed.

(** A run either leaves early, with the stores as they were, or reaches
    the upload step with the parsed figures. *)
Lemma parse_demo_file_cases d o w :
  (∃ w', parse_demo_file d o w = (false, w') ∧ same_stores w' w)
  ∨ (∃ ms w0,
       check_required_players d = true
       ∧ parse_map_stats d = Some ms
       ∧ same_stores w0 w
       ∧ parse_demo_file d o w
         = upload_step d o (get_match_id d) (parse_player_stats d) ms w0).
Proof.
  unfold parse_demo_file.
  destruct (check_required_players d); simpl negb; cbv iota.
  2: { left. eexists. split; [reflexivity|]. done. }
  destruct (negb (use_api o) && match_exists_in_db _ _); cbv iota.
  { left. eexists. split; [reflexivity|]. done. }
  destruct (bool_decide (parse_player_stats d = ∅)); cbv iota.
  { left. eexists. split; [reflexivity|]. done. }
  destruct (parse_map_stats d) as [ms|]; cbv iota.
  2: { left. eexists. split; [reflexivity|]. done. }
  right. eexists ms, _. split; [done|]. split; [done|].
  split; [|reflexivity]. done.
Qed.

Lemma same_stores_sink o w' w : same_stores w' w → sink o w' = sink o w.
Proof. intros (Hr & Hl & _). unfold sink. by rewrite Hr, Hl. Qed.



(** An upload step that reports no success leaves the local database and
    the clean-ups alone, and the store behind the API too when the answer
    was seen. *)
Lemma upload_step_false d o id stats ms w :
  (upload_step d o id stats ms w).1 = false →
  local_db (upload_step d o id stats ms w).2 = local_db w
  ∧ cleanups (upload_step d o id stats ms w).2 = cleanups w
  ∧ (answer_seen o →
     remote_db (upload_step d o id stats ms w).2 = remote_db w).
Proof.
  intros Hfalse.
  destruct (upload_step_effect d o id stats ms w)
    as (Hlocal & Hremote & _ & Hkeep & _ & _ & Hclean).
  rewrite Hfalse in Hclean. simpl in Hclean.
  unfold sink in Hkeep. destruct (use_api o) eqn:Hmode.
  - split; [by apply Hlocal|]. split; [exact Hclean|].
    intros Hseen. by apply Hkeep.
  - split; [apply Hkeep; [by left|exact Hfalse]|]. split; [exact Hclean|].
    intros _. by apply Hremote.
Qed.


Lemma parse_demo_file_true d o w :
  (parse_demo_file d o w).1 = true →
  direct_path o →
  check_required_players d = true
  ∧ count_map_stats (sink o w) (get_match_id d) = 0%Z
  ∧ ∃ ms, parse_map_stats d = Some ms
          ∧ sink o (parse_demo_file d o w).2
            = with_match (sink o w) (get_match_id d) ms
                         (map_to_list (parse_player_stats d)).
Proof.
  destruct (parse_demo_file_cases d o w)
    as [(w' & -> & Hsame)|(ms & w0 & Hcheck & Hms & Hsame & ->)]; [done|].
  intros Htrue Hpath.
  destruct (upload_step_effect d o (get_match_id d) (parse_player_stats d) ms w0)
    as (_ & _ & _ & _ & Hstored & _).
  destruct (Hstored Hpath Htrue) as [Hzero Hsink].
  rewrite (same_stores_sink o w0 w Hsame) in Hzero, Hsink.
  split; [exact Hcheck|]. split; [exact Hzero|].
  exists ms. split; [exact Hms|exact Hsink].
Qed.

(** The [map_stats] rows of a match after it was added to a store that had
    none for it. *)
Lemma map_rows_of_fresh_match db id ms players :
  count_map_stats db id = 0%Z →
  map_rows_of (with_match db id ms players) id
  = [ {| map_match_id := id; map_row := ms |} ].
Proof.
  intros Hzero. rewrite map_rows_of_with_match, decide_True by done.
  by rewrite (map_rows_of_nil _ _ Hzero).
Qed.

(** A run that returns [False] leaves the local database and the
    scheduled clean-ups as they were.  It leaves the store behind the API
    as it was too when the client saw the answer to its upload; when the
    handler ran and its reply was lost on the way, the store is as it was
    or holds the parsed match, although the run returned [False]. *)
Theorem failed_run_keeps_stores_unless_reply_lost d o w :
  (parse_demo_file d o w).1 = false →
  local_db (parse_demo_file d o w).2 = local_db w
  ∧ cleanups (parse_demo_file d o w).2 = cleanups w
  ∧ (answer_seen o → remote_db (parse_demo_file d o w).2 = remote_db w)
  ∧ (remote_db (parse_demo_file d o w).2 = remote_db w
     ∨ ∃ ms, parse_map_stats d = Some ms
             ∧ count_map_stats (remote_db w) (get_match_id d) = 0%Z
             ∧ remote_db (parse_demo_file d o w).2
               = with_match (remote_db w) (get_match_id d) ms
                            (map_to_list (parse_player_stats d))).
Proof.
  destruct (parse_demo_file_cases d o w)
    as [(w' & -> & Hr & Hl & Hc)|(ms & w0 & _ & Hms & (Hr & Hl & Hc) & ->)].
  { intros _. simpl. split; [exact Hl|]. split; [exact Hc|].
    split; [intros _; exact Hr|left; exact Hr]. }
  intros Hfalse.
  destruct (upload_step_false d o _ _ ms w0 Hfalse) as (Hlocal & Hclean & Hseen).
  split; [by rewrite Hlocal|]. split; [by rewrite Hclean|].
  split; [intros Ho; by rewrite (Hseen Ho)|].
  destruct (upload_step_effect d o (get_match_id d) (parse_player_stats d) ms w0)
    as (_ & Hremote & Hsink & _).
  unfold sink in Hsink. destruct (use_api o).
  - rewrite Hr in Hsink. destruct Hsink as [Hsame|[Hzero Hstored]].
    + left. exact Hsame.
    + right. exists ms. split; [exact Hms|]. split; [exact Hzero|exact Hstored].
  - left. rewrite Hremote by reflexivity. exact Hr.
Qed.

(** A run that returns [True] on a direct path found no row for the match
    id in its store, passed the roster check, and left in that store the
    map outcome and one row per entry of the parsed statistics. *)
Theorem successful_run_stores_match d o w :
  (parse_demo_file d o w).1 = true →
  direct_path o →
  check_required_players d = true
  ∧ count_map_stats (sink o w) (get_match_id d) = 0%Z
  ∧ ∃ ms, parse_map_stats d = Some ms
          ∧ sink o (parse_demo_file d o w).2
            = with_match (sink o w) (get_match_id d) ms
                         (map_to_list (parse_player_stats d))
          ∧ map_rows_of (sink o (parse_demo_file d o w).2) (get_match_id d)
            = [ {| map_match_id := get_match_id d; map_row := ms |} ].
Proof.
  intros Htrue Hpath.
  destruct (parse_demo_file_true d o w Htrue Hpath)
    as (Hcheck & Hzero & ms & Hms & Hsink).
  split; [done|]. split; [done|]. exists ms. split; [done|]. split; [done|].
  rewrite Hsink. by apply map_rows_of_fresh_match.
Qed.


(** A run in API mode never touches the local database, a run in database
    mode never touches the store behind the API. *)
Theorem modes_are_isolated d o w :
  (use_api o = true → local_db (parse_demo_file d o w).2 = local_db w)
  ∧ (use_api o = false → remote_db (parse_demo_file d o w).2 = remote_db w).
Proof.
  destruct (parse_demo_file_cases d o w)
    as [(w' & -> & Hr & Hl & _)|(ms & w0 & _ & _ & (Hr & Hl & _) & ->)];
    [by split|].
  destruct (upload_step_effect d o (get_match_id d) (parse_player_stats d) ms w0)
    as (Hlocal & Hremote & _).
  split; intros Hmode.
  - by rewrite (Hlocal Hmode).
  - by rewrite (Hremote Hmode).
Qed.

(** The deletion of a recording is scheduled exactly when the run
    returned [True] and clean-up was asked for. *)
Theorem cleanup_only_after_success d o w :
  cleanups (parse_demo_file d o w).2
  = if (parse_demo_file d o w).1 && cleanup o
    then stem d :: cleanups w else cleanups w.
Proof.
  destruct (parse_demo_file_cases d o w)
    as [(w' & -> & _ & _ & Hc)|(ms & w0 & _ & _ & (_ & _ & Hc) & ->)]; [done|].
  destruct (upload_step_effect d o (get_match_id d) (parse_player_stats d) ms w0)
    as (_ & _ & _ & _ & _ & _ & ->).
  by rewrite Hc.
Qed.

(** In database mode a recording whose match id is already stored is
    skipped after the roster check, before anything is parsed. *)
Theorem database_mode_precheck d o w :
  use_api o = false →
  check_required_players d = true →
  (0 < count_map_stats (local_db w) (get_match_id d))%Z →
  parse_demo_file d o w
  = (false, say [AllRequiredFound; MatchId (get_match_id d);
                 ExistsInDatabaseSkipping (get_match_id d)] w).
Proof.
  intros Hmode Hcheck Hpos%Z.ltb_lt. unfold parse_demo_file.
  rewrite Hcheck, Hmode. simpl negb. cbv iota.
  unfold match_exists_in_db. simpl local_db. rewrite Hpos. done.
Qed.

Lemma parse_demo_file_consistent d o w :
  consistent_store (remote_db w) → consistent_store (local_db w) →
  consistent_store (remote_db (parse_demo_file d o w).2)
  ∧ consistent_store (local_db (parse_demo_file d o w).2).
Proof.
  intros Hremote Hlocal.
  destruct (parse_demo_file_cases d o w)
    as [(w' & -> & Hr & Hl & _)|(ms & w0 & _ & _ & (Hr & Hl & _) & ->)].
  { simpl. by rewrite Hr, Hl. }
  destruct (upload_step_effect d o (get_match_id d) (parse_player_stats d) ms w0)
    as (Hkeep_local & Hkeep_remote & Hsink & _).
  unfold sink in Hsink. destruct (use_api o).
  - rewrite Hkeep_local, Hl by done. split; [|done].
    destruct Hsink as [->|(Hzero & ->)]; rewrite Hr in *; [done|].
    by apply with_match_consistent.
  - rewrite Hkeep_remote, Hr by done. split; [done|].
    destruct Hsink as [->|(Hzero & ->)]; rewrite Hl in *; [done|].
    by apply with_match_consistent.
Qed.

Lemma process_demos_cons d demos o w t :
  process_demos (d :: demos) o w t
  = process_demos demos o (parse_demo_file d o w).2
      (count_result (Some (parse_demo_file d o w).1) t).
Proof. simpl. by destruct (parse_demo_file d o w). Qed.

(** A batch keeps both stores consistent: at most one [map_stats] row per
    match id, and no [player_stats] row without its match. *)
Theorem batch_keeps_stores_consistent demos o w t :
  consistent_store (remote_db w) →
  consistent_store (local_db w) →
  consistent_store (remote_db (process_demos demos o w t).2)
  ∧ consistent_store (local_db (process_demos demos o w t).2).
Proof.
  revert w t. induction demos as [|d demos IH]; intros w t Hremote Hlocal.
  - by split.
  - rewrite process_demos_cons.
    destruct (parse_demo_file_consistent d o w Hremote Hlocal) as [Hr Hl].
    by apply IH.
Qed.

(** The loop counts every recording once, as uploaded or as skipped. *)
Theorem every_demo_counted_once demos o w t :
  (successful (process_demos demos o w t).1
   + skipped (process_demos demos o w t).1
   = successful t + skipped t + len demos)%Z
  ∧ failed (process_demos demos o w t).1 = failed t
  ∧ (successful t ≤ successful (process_demos demos o w t).1)%Z
  ∧ (skipped t ≤ skipped (process_demos demos o w t).1)%Z.
Proof.
  revert w t. induction demos as [|d demos IH]; intros w t.
  - simpl. unfold len. simpl. split; [lia|]. split; [done|lia].
  - rewrite process_demos_cons.
    destruct (IH (parse_demo_file d o w).2
                 (count_result (Some (parse_demo_file d o w).1) t))
      as (Hsum & Hfailed & Hs & Hk).
    unfold len in *. rewrite length_cons.
    destruct (parse_demo_file d o w).1; simpl in *; split_and!; lia.
Qed.

End PipelineMore.

(** The full sample recording against an empty sink whose reply is lost:
    the run returns [False] and the local database is untouched, yet the
    sink holds the match.  A second run with the answer seen returns
    [False] and leaves the sink as it is. *)
Lemma failed_run_keeps_stores_unless_reply_lost_witness :
  (parse_demo_file full_demo lost_reply_options fresh_world).1 = false
  ∧ local_db (parse_demo_file full_demo lost_reply_options fresh_world).2
    = local_db fresh_world
  ∧ count_map_stats
      (remote_db (parse_demo_file full_demo lost_reply_options fresh_world).2)
      (get_match_id full_demo) = 1%Z
  ∧ remote_db
      (parse_demo_file full_demo api_options
         (parse_demo_file full_demo lost_reply_options fresh_world).2).2
    = remote_db (parse_demo_file full_demo lost_reply_options fresh_world).2.
Proof.
  assert ((parse_demo_file full_demo lost_reply_options fresh_world).1 = false)
    as Hfalse by (vm_compute; reflexivity).
  split; [exact Hfalse|].
  split; [exact (proj1 (failed_run_keeps_stores_unless_reply_lost
                          full_demo lost_reply_options fresh_world Hfalse))|].
  split; [vm_compute; reflexivity|].
  assert ((parse_demo_file full_demo api_options
             (parse_demo_file full_demo lost_reply_options fresh_world).2).1
          = false) as Hagain by (vm_compute; reflexivity).
  apply (failed_run_keeps_stores_unless_reply_lost full_demo api_options _ Hagain).
  right. intros seen Hlost. discriminate Hlost.
Defined.

(** The full sample recording is delivered to the empty sink behind the
    API and leaves one [map_stats] row there. *)
Lemma successful_run_stores_match_witness :
  (parse_demo_file full_demo api_options fresh_world).1 = true
  ∧ direct_path api_options
  ∧ ∃ ms, parse_map_stats full_demo = Some ms
          ∧ map_rows_of
              (sink api_options (parse_demo_file full_demo api_options fresh_world).2)
              (get_match_id full_demo)
            = [ {| map_match_id := get_match_id full_demo; map_row := ms |} ].
Proof.
  assert ((parse_demo_file full_demo api_options fresh_world).1 = true) as Htrue
    by (vm_compute; reflexivity).
  assert (direct_path api_options) as Hpath by (by right).
  destruct (successful_run_stores_match full_demo api_options fresh_world
              Htrue Hpath) as (_ & _ & ms & Hms & _ & Hrows).
  split; [exact Htrue|]. split; [exact Hpath|].
  exists ms. split; [exact Hms|exact Hrows].
Defined.


(** Database mode on a local store that already holds the sample match. *)
Lemma database_mode_precheck_witness :
  (parse_demo_file full_demo
     {| use_api := false; api_url := None; route := Reaches; cleanup := true |}
     {| remote_db := empty_db; local_db := stored_once; printed := [];
        cleanups := [] |}).1 = false.
Proof.
  rewrite database_mode_precheck; [reflexivity|reflexivity| |];
    vm_compute; reflexivity.
Defined.

(** A batch of two runs on the sample recording from empty stores. *)
Lemma batch_keeps_stores_consistent_witness :
  consistent_store
    (remote_db (process_demos [full_demo; full_demo] api_options fresh_world
                  {| successful := 0; skipped := 0; failed := 0 |}).2).
Proof.
  assert (consistent_store empty_db) as Hempty.
  { split; [apply NoDup_nil_2|]. by intros r Hr%elem_of_nil. }
  exact (proj1 (batch_keeps_stores_consistent [full_demo; full_demo] api_options
                  fresh_world _ Hempty Hempty)).
Defined.

(** * The match identifier and the time stamp *)

Section IdentityMore.

Implicit Types (s ds rest : string) (t : Stamp).

Lemma remove_underscores_app s1 s2 :
  remove_underscores (s1 ++ s2) = remove_underscores s1 ++ remove_underscores s2.
Proof.
  induction s1 as [|c s1 IH]; [done|]. simpl.
  destruct (Ascii.eqb c "_"); [done|]. simpl. by rewrite IH.
Qed.

Lemma remove_underscores_free s :
  Forall (λ c, c ≠ "_"%char) (list_ascii_of_string (remove_underscores s)).
Proof.
  induction s as [|c s IH]; [constructor|]. simpl.
  destruct (Ascii.eqb_spec c "_"); [done|]. simpl. by constructor.
Qed.

Lemma remove_underscores_id s :
  Forall (λ c, c ≠ "_"%char) (list_ascii_of_string s) → remove_underscores s = s.
Proof.
  induction s as [|c s IH]; [done|]. simpl.
  intros [Hc Hs]%Forall_cons.
  destruct (Ascii.eqb_spec c "_"); [done|]. by rewrite IH.
Qed.

Lemma remove_underscores_length s :
  (String.length (remove_underscores s) ≤ String.length s)%nat.
Proof.
  induction s as [|c s IH]; [done|]. simpl.
  destruct (Ascii.eqb c "_"); simpl; lia.
Qed.

(** The match id is the stem without its underscores: none is left, every
    other character is kept in place, and stems that differ in underscores
    only get the same id. *)
Theorem get_match_id_strips_underscores (d : Demo) :
  Forall (λ c, c ≠ "_"%char) (list_ascii_of_string (get_match_id d))
  ∧ (Forall (λ c, c ≠ "_"%char) (list_ascii_of_string (stem d)) →
     get_match_id d = stem d)
  ∧ (String.length (get_match_id d) ≤ String.length (stem d))%nat
  ∧ (∀ d' s1 s2, stem d = s1 ++ "_" ++ s2 → stem d' = s1 ++ s2 →
                 get_match_id d' = get_match_id d).
Proof.
  unfold get_match_id.
  split; [apply remove_underscores_free|].
  split; [apply remove_underscores_id|].
  split; [apply remove_underscores_length|].
  intros d' s1 s2 -> ->. by rewrite !remove_underscores_app.
Qed.

Lemma is_digit_not_underscore c : is_digit c = true → c ≠ "_"%char.
Proof. intros Hc ->. discriminate Hc. Qed.

Lemma all_digits_no_underscore ds :
  all_digits ds = true → remove_underscores ds = ds.
Proof.
  induction ds as [|c ds IH]; [done|]. simpl.
  intros [Hc Hds]%andb_true_iff.
  destruct (Ascii.eqb_spec c "_") as [->|_]; [discriminate Hc|].
  by rewrite IH.
Qed.

Lemma take_digits_spec n s ds rest :
  take_digits n s = Some (ds, rest) ↔ s = ds ++ rest ∧ digits n ds.
Proof.
  unfold digits. revert s ds rest. induction n as [|n IH]; intros s ds rest; simpl.
  - split.
    + by intros [= <- <-].
    + intros (-> & Hlen & _). by destruct ds.
  - destruct s as [|c s].
    + split; [done|]. intros (Hs & Hlen & _). by destruct ds.
    + destruct (is_digit c) eqn:Hc.
      * destruct (take_digits n s) as [[ds' rest']|] eqn:Htake.
        -- apply IH in Htake as (-> & Hlen & Hall). split.
           ++ intros [= <- <-]. simpl. rewrite Hc, Hall, Hlen. done.
           ++ intros (Hs & Hlen' & Hall'). destruct ds as [|c' ds]; [done|].
              simpl in *. injection Hs as -> Hs. injection Hlen' as Hlen'.
              apply andb_true_iff in Hall' as [_ Hall'].
              assert (take_digits n (ds' ++ rest') = Some (ds, rest)) as Heq
                by (apply IH; by rewrite Hs).
              assert (take_digits n (ds' ++ rest') = Some (ds', rest')) as Heq'
                by (by apply IH).
              congruence.
        -- split; [done|]. intros (Hs & Hlen' & Hall').
           destruct ds as [|c' ds]; [done|].
           simpl in *. injection Hs as -> ->. injection Hlen' as Hlen'.
           apply andb_true_iff in Hall' as [_ Hall'].
           assert (take_digits n (ds ++ rest) = Some (ds, rest)) as Heq
             by (by apply IH).
           congruence.
      * split; [done|]. intros (Hs & Hlen' & Hall').
        destruct ds as [|c' ds]; [done|].
        simpl in *. injection Hs as -> ->.
        apply andb_true_iff in Hall' as [Hc' _]. congruence.
Qed.

Lemma take_underscore_spec s rest :
  take_underscore s = Some rest ↔ s = "_" ++ rest.
Proof.
  destruct s as [|c s]; simpl; [done|].
  destruct (Ascii.eqb_spec c "_") as [->|Hne].
  - split; [by intros [= ->]|by intros [= ->]].
  - split; [done|]. by intros [= -> _].
Qed.

(** What a match of the pattern says about the name. *)
Lemma match_timestamp_Some (filename : string) t :
  match_timestamp filename = Some t →
  (∃ rest, filename = stamped_name t rest)
  ∧ digits 4 (year t) ∧ digits 2 (month t) ∧ digits 2 (day t)
  ∧ digits 2 (hour t) ∧ digits 2 (minute t).
Proof.
  unfold match_timestamp, stamped_name. intros Hmatch.
  destruct (take_digits 4 filename) as [[y s1]|] eqn:H1; [|done].
  cbn -[take_digits take_underscore] in Hmatch.
  destruct (take_underscore s1) as [s2|] eqn:H2; [|done].
  cbn -[take_digits take_underscore] in Hmatch.
  destruct (take_digits 2 s2) as [[mo s3]|] eqn:H3; [|done].
  cbn -[take_digits take_underscore] in Hmatch.
  destruct (take_underscore s3) as [s4|] eqn:H4; [|done].
  cbn -[take_digits take_underscore] in Hmatch.
  destruct (take_digits 2 s4) as [[dd s5]|] eqn:H5; [|done].
  cbn -[take_digits take_underscore] in Hmatch.
  destruct (take_underscore s5) as [s6|] eqn:H6; [|done].
  cbn -[take_digits take_underscore] in Hmatch.
  destruct (take_digits 2 s6) as [[h s7]|] eqn:H7; [|done].
  cbn -[take_digits take_underscore] in Hmatch.
  destruct (take_underscore s7) as [s8|] eqn:H8; [|done].
  cbn -[take_digits take_underscore] in Hmatch.
  destruct (take_digits 2 s8) as [[mi s9]|] eqn:H9; [|done].
  cbn -[take_digits take_underscore] in Hmatch.
  injection Hmatch as <-. simpl.
  apply take_digits_spec in H1 as [-> ?], H3 as [-> ?], H5 as [-> ?],
    H7 as [-> ?], H9 as [-> ?].
  apply take_underscore_spec in H2 as ->, H4 as ->, H6 as ->, H8 as ->.
  split; [|done]. by exists s9.
Qed.

(** The pattern of line 307 matches exactly the names that begin with four,
    two, two, two and two decimal digits separated by underscores; the
    groups are those digits.  Nothing is required of what follows, nor of
    the ranges of the numbers. *)
Theorem match_timestamp_spec (filename : string) t :
  match_timestamp filename = Some t ↔
    (∃ rest, filename = stamped_name t rest)
    ∧ digits 4 (year t) ∧ digits 2 (month t) ∧ digits 2 (day t)
    ∧ digits 2 (hour t) ∧ digits 2 (minute t).
Proof.
  split; [apply match_timestamp_Some|].
  unfold match_timestamp, stamped_name.
  intros ((rest & ->) & Hy & Hmo & Hd & Hh & Hmi).
  destruct t as [y mo dd h mi]. cbn [year month day hour minute] in *.
  rewrite (proj2 (take_digits_spec 4 _ y _) (conj eq_refl Hy)).
  cbn -[take_digits take_underscore].
  rewrite (proj2 (take_underscore_spec _ _) eq_refl).
  cbn -[take_digits take_underscore].
  rewrite (proj2 (take_digits_spec 2 _ mo _) (conj eq_refl Hmo)).
  cbn -[take_digits take_underscore].
  rewrite (proj2 (take_underscore_spec _ _) eq_refl).
  cbn -[take_digits take_underscore].
  rewrite (proj2 (take_digits_spec 2 _ dd _) (conj eq_refl Hd)).
  cbn -[take_digits take_underscore].
  rewrite (proj2 (take_underscore_spec _ _) eq_refl).
  cbn -[take_digits take_underscore].
  rewrite (proj2 (take_digits_spec 2 _ h _) (conj eq_refl Hh)).
  cbn -[take_digits take_underscore].
  rewrite (proj2 (take_underscore_spec _ _) eq_refl).
  cbn -[take_digits take_underscore].
  by rewrite (proj2 (take_digits_spec 2 _ mi rest) (conj eq_refl Hmi)).
Qed.

(** For a recording named by the pattern, the match id begins with the
    twelve digits of the time stamp, and [date_time] spells the same
    digits; any other name falls back to the modification time. *)
Theorem match_id_begins_with_timestamp (d : Demo) (modified : string) :
  (∀ t, match_timestamp (stem d) = Some t →
        map_date_time (stem d) modified = format_stamp t
        ∧ ∃ rest, get_match_id d
                  = year t ++ month t ++ day t ++ hour t ++ minute t ++ rest)
  ∧ (match_timestamp (stem d) = None → map_date_time (stem d) modified = modified).
Proof.
  split.
  - intros t Hmatch. unfold map_date_time. rewrite Hmatch. split; [done|].
    apply match_timestamp_Some in Hmatch
      as ((rest & Hstem) & [_ Hy] & [_ Hmo] & [_ Hd] & [_ Hh] & [_ Hmi]).
    exists (remove_underscores rest).
    unfold get_match_id. rewrite Hstem. unfold stamped_name.
    rewrite !remove_underscores_app.
    rewrite (all_digits_no_underscore _ Hy), (all_digits_no_underscore _ Hmo),
      (all_digits_no_underscore _ Hd), (all_digits_no_underscore _ Hh),
      (all_digits_no_underscore _ Hmi).
    reflexivity.
  - intros Hnone. unfold map_date_time. by rewrite Hnone.
Qed.

End IdentityMore.

(** The stem of the sample recording spells 2024-05-01 20:30 and gives the
    match id 202405012030. *)
Lemma match_timestamp_spec_witness :
  match_timestamp "2024_05_01_20_30"
  = Some {| year := "2024"; month := "05"; day := "01"; hour := "20";
            minute := "30" |}
  ∧ map_date_time (stem full_demo) "2020-01-01 00:00:00" = "2024-05-01 20:30:00"
  ∧ get_match_id full_demo = "202405012030".
Proof.
  split; [|split; reflexivity].
  apply match_timestamp_spec. split; [by exists ""|].
  repeat split.
Defined.

(** * The security middleware *)

Section SecurityMore.

Implicit Types (s w : string) (mw : Middleware) (req : Request).

(** Every word of [str.split()] is non-empty and free of white space. *)
Lemma str_split_words s :
  Forall (λ w, w ≠ "" ∧ no_space w = true) (str_split s).
Proof.
  induction s as [|c s IH]; [constructor|]. simpl.
  destruct (is_space c) eqn:Hc; [done|].
  destruct (starts_word s).
  - destruct (str_split s) as [|w ws]; [|apply Forall_cons in IH as [[_ Hw] Hws]].
    + constructor; [|constructor]. split; [done|]. simpl. by rewrite Hc.
    + constructor; [|done]. split; [done|]. simpl. by rewrite Hc.
  - constructor; [|done]. split; [done|]. simpl. by rewrite Hc.
Qed.

(** A word followed by white space, or by nothing, is split off whole. *)
Lemma str_split_word w rest :
  w ≠ "" → no_space w = true → starts_word rest = false →
  str_split (w ++ rest) = w :: str_split rest.
Proof.
  induction w as [|c w IH]; [done|]. intros _ Hw Hrest.
  simpl in Hw. apply andb_true_iff in Hw as [Hc Hw].
  apply negb_true_iff in Hc.
  destruct w as [|c' w'].
  - change (String c "" ++ rest) with (String c rest).
    cbn [str_split]. by rewrite Hc, Hrest.
  - change (String c (String c' w') ++ rest)
      with (String c (String c' w' ++ rest)).
    cbn [str_split]. rewrite Hc.
    assert (starts_word (String c' w' ++ rest) = true) as ->.
    { simpl in *. by apply andb_true_iff in Hw as [-> _]. }
    by rewrite IH.
Qed.

Lemma append_empty_r s : s ++ "" = s.
Proof.
  induction s as [|c s IH]; [done|].
  change (String c s ++ "") with (String c (s ++ "")). by rewrite IH.
Qed.

(** A single word is the only word of its split. *)
Lemma str_split_one w : w ≠ "" → no_space w = true → str_split w = [w].
Proof.
  intros Hne Hw. rewrite <- (append_empty_r w) at 1.
  by rewrite str_split_word.
Qed.

Lemma str_split_space c rest : is_space c = true → str_split (String c rest) = str_split rest.
Proof. intros Hc. simpl. by rewrite Hc. Qed.

(** The token check accepts a header only if it consists of two words, the
    first a spelling of "bearer" and the second the configured token; a
    configured token that is empty, not ASCII or contains white space is
    never accepted. *)
Theorem token_check_sound (expected auth_header : option string) :
  verify_token expected auth_header = TokenOk →
  ∃ header scheme token,
    auth_header = Some header
    ∧ expected = Some token
    ∧ str_split header = [scheme; token]
    ∧ lower scheme = "bearer"
    ∧ token ≠ "" ∧ no_space token = true ∧ is_ascii token = true.
Proof.
  unfold verify_token. destruct auth_header as [header|]; [|done].
  destruct (negb (truthy (Some header))); [done|]. simpl default.
  pose proof (str_split_words header) as Hwords.
  destruct (str_split header) as [|scheme [|token [|]]] eqn:Hsplit; try done.
  destruct (String.eqb_spec (lower scheme) "bearer") as [Hscheme|]; [|done].
  destruct expected as [api_token|]; [|done].
  destruct (is_ascii token) eqn:Hascii; [|done].
  destruct (is_ascii api_token); [|done]. simpl.
  destruct (String.eqb_spec token api_token) as [<-|]; [|done]. intros _.
  apply Forall_cons in Hwords as [_ Hwords].
  apply Forall_cons in Hwords as [[Hne Hnospace] _].
  exists header, scheme, token. by split_and!.
Qed.

(** The header built by the client is accepted exactly when its token is
    the configured one, for tokens that are non-empty, ASCII and free of
    white space. *)
Theorem bearer_token_round_trip (token expected : string) :
  token ≠ "" → no_space token = true → is_ascii token = true →
  is_ascii expected = true →
  (verify_token (Some expected) (client_authorization (Some token)) = TokenOk
   ↔ token = expected)
  ∧ (token ≠ expected →
     verify_token (Some expected) (client_authorization (Some token))
     = TokenRejected "Invalid API token").
Proof.
  intros Hne Hnospace Hascii Hexpected.
  assert (truthy (Some token) = true) as Htruthy.
  { simpl. destruct (String.eqb_spec token ""); done. }
  assert (str_split ("Bearer " ++ token) = ["Bearer"; token]) as Hsplit.
  { change ("Bearer " ++ token) with ("Bearer" ++ String " " token).
    rewrite str_split_word; [|done..]. f_equal.
    rewrite str_split_space by done.
    by apply str_split_one. }
  unfold verify_token, client_authorization. rewrite Htruthy. simpl default.
  simpl truthy. simpl negb. cbv iota. rewrite Hsplit.
  change (String.eqb (lower "Bearer") "bearer") with true. cbv iota.
  rewrite Hascii, Hexpected. simpl andb. cbv iota.
  destruct (String.eqb_spec token expected) as [->|Hdiff]; split; done.
Qed.

(** An error response of the middleware has status 401 or 403; the
    client reports it as a failed upload, neither as a success nor as a
    match that exists already, and the store is as it was.  [text] is the
    body of the response. *)
Theorem rejected_upload_is_reported_as_failure mw cached outcome req status
    detail text id stats ms db :
  dispatch mw cached outcome req = ErrorResponse status detail →
  (status = 401 ∨ status = 403)%Z
  ∧ upload_to_api (Intercepted status text) id stats ms db
    = (false, ApiUploadFailed status text, db).
Proof.
  intros Hd.
  assert (status = 401 ∨ status = 403)%Z as Hstatus.
  { unfold dispatch in Hd. destruct (bool_decide _); [done|].
    destruct (if token_auth_enabled mw then _ else _);
      [|left; by injection Hd as <- _|done].
    destruct (_ && _ && _); [right; by injection Hd as <- _|done]. }
  split; [exact Hstatus|].
  unfold upload_to_api, post, check_response.
  by destruct Hstatus as [->| ->].
Qed.

(** With token authentication on, an upload without the configured token
    is answered with 401 before any other check and never reaches the
    handler. *)
Theorem upload_requires_token mw cached outcome req :
  token_auth_enabled mw = true →
  path req ∉ exempt_paths mw →
  verify_token (api_token mw) (authorization req) ≠ TokenOk →
  dispatch mw cached outcome req ≠ CallNext
  ∧ (authorization req = None →
     dispatch mw cached outcome req
     = ErrorResponse 401 "Missing Authorization header").
Proof.
  intros Henabled Hpath Htoken. unfold dispatch.
  rewrite bool_decide_eq_false_2 by done. rewrite Henabled. split.
  - by destruct (verify_token (api_token mw) (authorization req)).
  - by intros ->.
Qed.

(** The address used for the geolocation check is taken from the request
    headers first: when the first entry of X-Forwarded-For begins like a
    local address, a request with a valid token passes whatever the cache
    and the lookup say. *)
Theorem forwarded_local_address_skips_geolocation mw cached outcome req forwarded :
  x_forwarded_for req = Some forwarded →
  forwarded ≠ "" →
  is_local_ip (strip (before_comma forwarded)) = true →
  (token_auth_enabled mw = true →
   verify_token (api_token mw) (authorization req) = TokenOk) →
  dispatch mw cached outcome req = CallNext.
Proof.
  intros Hfwd Hne Hlocal Htoken. unfold dispatch.
  destruct (bool_decide _); [done|].
  assert ((if token_auth_enabled mw
           then verify_token (api_token mw) (authorization req) else TokenOk)
          = TokenOk) as ->.
  { destruct (token_auth_enabled mw); [by apply Htoken|done]. }
  unfold get_client_ip. rewrite Hfwd. simpl.
  destruct (String.eqb_spec forwarded ""); [done|]. simpl.
  rewrite Hlocal. simpl. by rewrite andb_false_r.
Qed.

(** For a middleware built by [__init__]: a geolocation lookup that raises
    lets the request pass, a lookup that gives no country blocks it, and a
    cached country decides without the lookup. *)
Theorem geolocation_fails_open_on_error mw token_enabled token geo_enabled
    countries exempt :
  make_middleware token_enabled token geo_enabled countries exempt = Some mw →
  allowed_countries mw ≠ []
  ∧ verify_geolocation mw None LookupError = true
  ∧ verify_geolocation mw None (Answer None) = false
  ∧ (∀ c outcome,
       verify_geolocation mw (Some c) outcome
       = bool_decide (c ∈ allowed_countries mw))
  ∧ (∀ c, verify_geolocation mw None (Answer (Some c))
          = bool_decide (c ∈ allowed_countries mw)).
Proof.
  unfold make_middleware.
  destruct (token_enabled && negb (truthy token)); [done|].
  intros [= <-]. simpl.
  assert (or_default countries ["NO"] ≠ []) as Hne.
  { by destruct countries as [[|? ?]|]. }
  split; [done|]. split; [|done].
  unfold verify_geolocation, lookup_country. simpl.
  destruct (or_default countries ["NO"]) as [|c cs]; [done|]. simpl.
  apply bool_decide_eq_true_2. left.
Qed.

End SecurityMore.

(** A header with the right token. *)
Lemma token_check_sound_witness :
  verify_token (Some "s3cret") (Some "bearer s3cret") = TokenOk
  ∧ ∃ header scheme token,
      Some "bearer s3cret" = Some header
      ∧ str_split header = [scheme; token]
      ∧ lower scheme = "bearer".
Proof.
  assert (verify_token (Some "s3cret") (Some "bearer s3cret") = TokenOk) as Hok
    by reflexivity.
  split; [exact Hok|].
  destruct (token_check_sound _ _ Hok)
    as (header & scheme & token & Hh & _ & Hsplit & Hscheme & _).
  exists header, scheme, token. by split_and!.
Defined.

(** The client's header for the token "s3cret". *)
Lemma bearer_token_round_trip_witness :
  verify_token (Some "s3cret") (client_authorization (Some "s3cret")) = TokenOk
  ∧ verify_token (Some "other") (client_authorization (Some "s3cret"))
    = TokenRejected "Invalid API token".
Proof.
  split.
  - apply (bearer_token_round_trip "s3cret" "s3cret"); done.
  - apply (bearer_token_round_trip "s3cret" "other"); done.
Defined.

Definition guarded : Middleware :=
  {| token_auth_enabled := true; api_token := Some "s3cret";
     geolocation_enabled := true; allowed_countries := ["NO"; "NL"];
     exempt_paths := default_exempt_paths |}.

(** An upload without a token against a guarded server. *)
Lemma upload_requires_token_witness :
  dispatch guarded None (Answer (Some "NO"))
    (upload_request None None None (Some "203.0.113.7"))
  = ErrorResponse 401 "Missing Authorization header".
Proof.
  apply (upload_requires_token guarded None (Answer (Some "NO"))
           (upload_request None None None (Some "203.0.113.7")));
    [reflexivity| |discriminate|reflexivity].
  unfold guarded, default_exempt_paths, upload_request. simpl.
  intros Hin. repeat (apply elem_of_cons in Hin as [Hin|Hin]; [discriminate Hin|]).
  by apply elem_of_nil in Hin.
Defined.

(** The same upload is reported as failed with status 401. *)
Lemma rejected_upload_is_reported_as_failure_witness :
  upload_to_api (Intercepted 401 "Unauthorized") (match_id sample_payload)
    (parse_player_stats full_demo) (map_stats sample_payload) stored_once
  = (false, ApiUploadFailed 401 "Unauthorized", stored_once).
Proof.
  apply (rejected_upload_is_reported_as_failure guarded None
           (Answer (Some "NO"))
           (upload_request None None None (Some "203.0.113.7"))
           401 "Missing Authorization header").
  reflexivity.
Defined.

(** A request that names a private address in X-Forwarded-For passes,
    though the lookup of its real address would block it. *)
Lemma forwarded_local_address_skips_geolocation_witness :
  dispatch guarded None (Answer (Some "US"))
    (upload_request (Some "s3cret") (Some " 10.0.0.1 , 198.51.100.4") None
                    (Some "198.51.100.4"))
  = CallNext
  ∧ dispatch guarded None (Answer (Some "US"))
      (upload_request (Some "s3cret") None None (Some "198.51.100.4"))
    = ErrorResponse 403 "Access denied: API only accessible from NO, NL".
Proof.
  split; [|reflexivity].
  apply (forwarded_local_address_skips_geolocation guarded None
           (Answer (Some "US")) _ " 10.0.0.1 , 198.51.100.4");
    [reflexivity|discriminate|reflexivity|reflexivity].
Defined.

(** The middleware of api_server.py with its default countries. *)
Lemma geolocation_fails_open_on_error_witness :
  make_middleware true (Some "s3cret") true (Some ["NO"; "NL"]) None = Some guarded
  ∧ verify_geolocation guarded None LookupError = true
  ∧ verify_geolocation guarded None (Answer None) = false.
Proof.
  assert (make_middleware true (Some "s3cret") true (Some ["NO"; "NL"]) None
          = Some guarded) as Hmw by reflexivity.
  destruct (geolocation_fails_open_on_error _ _ _ _ _ _ Hmw)
    as (_ & Hopen & Hclosed & _).
  split; [exact Hmw|]. split; [exact Hopen|exact Hclosed].
Defined.

(** * The stored outcome of a match *)

Section OutcomeMore.

Implicit Types (d : Demo) (df : RoundFrame) (ms : MapStats).

Lemma count_rounds_fallback_flag df :
  (count_rounds_fallback df = 0 ∨ count_rounds_fallback df = 1)%Z.
Proof. unfold count_rounds_fallback. destruct (_ <? _)%Z; [by right|by left]. Qed.

Lemma determine_won_flag d df :
  (determine_won d df = 0 ∨ determine_won d df = 1)%Z.
Proof.
  unfold determine_won.
  destruct (_ && _ && _); [|by left].
  destruct (last (round_rows df)) as [last_round|]; [|by left].
  destruct (ticks d) as [ticks_df|]; [|apply count_rounds_fallback_flag].
  destruct (find_our_team _ _) as [our_team| |];
    [|by left|apply count_rounds_fallback_flag].
  destruct (String.eqb _ _); [by right|by left].
Qed.

(** [won] is 0 or 1, and it is 0 whenever the round table is not a table,
    has no rows, or lacks the winner or the tick column. *)
Theorem won_is_a_flag d ms :
  parse_map_stats d = Some ms →
  (won ms = 0 ∨ won ms = 1)%Z
  ∧ ((∀ df, round_end d = Frame df →
            round_rows df = [] ∨ has_winner df = false
            ∨ has_round_tick df = false) →
     won ms = 0%Z).
Proof.
  unfold parse_map_stats.
  destruct (header d) as [header_map_name|]; [|done].
  destruct (round_end d) as [df| |] eqn:Hrounds; [| |done]; intros [= <-]; simpl.
  - split; [apply determine_won_flag|].
    intros Hunusable. unfold determine_won.
    destruct (Hunusable df eq_refl) as [->|[->| ->]]; [done|..].
    + by rewrite andb_false_r.
    + by rewrite andb_false_r.
  - split; [by left|done].
Qed.

(** Samples outside the window of 1000 ticks before the end of the last
    round play no part: dropping any of them leaves the outcome as it
    is. *)
Theorem samples_outside_window_are_ignored d d' df last_round samples
    (keep : TickRow → bool) :
  last (round_rows df) = Some last_round →
  ticks d = Some samples →
  ticks d' = Some (filter (λ r, keep r = true) samples) →
  (∀ r, (round_tick last_round - 1000 ≤ tick r ≤ round_tick last_round)%Z →
        keep r = true) →
  determine_won d' df = determine_won d df.
Proof.
  intros Hlast Hticks Hticks' Hkeep. unfold determine_won.
  rewrite Hlast, Hticks, Hticks'.
  assert (relevant_ticks (filter (λ r, keep r = true) samples)
                         (round_tick last_round)
          = relevant_ticks samples (round_tick last_round)) as ->; [|done].
  unfold relevant_ticks. rewrite list_filter_filter.
  apply list_filter_iff. intros r. split; [by intros [? _]|].
  intros [Hlo Hhi]. split; [done|]. by apply Hkeep.
Qed.

End OutcomeMore.

(** The sample recording without a round table is stored as a loss. *)
Lemma won_is_a_flag_witness :
  ∃ ms, parse_map_stats no_rounds_demo = Some ms ∧ won ms = 0%Z.
Proof.
  eexists. split; [reflexivity|].
  apply (proj2 (won_is_a_flag no_rounds_demo _ eq_refl)).
  intros df Hdf. discriminate Hdf.
Defined.

(** The samples before tick 2000 of the sample recording do not matter
    for a last round that ends at tick 3000. *)
Lemma samples_outside_window_are_ignored_witness :
  determine_won late_samples_demo sample_rounds
  = determine_won full_demo sample_rounds.
Proof.
  apply (samples_outside_window_are_ignored full_demo late_samples_demo
           sample_rounds {| round_tick := 3000; round := 3; winner := "CT" |}
           sample_ticks late_samples);
    [reflexivity|reflexivity|reflexivity|].
  intros r Hr. unfold late_samples. apply Z.leb_le. simpl in Hr. lia.
Defined.
